(** * Kerning extraction of the sfnt package: GPOS pair adjustment
      parsing, the lazily decoded table directory and the kerning
      resolver.

    The Go sources embedded here are [sfnt/table_kern_gpos.go] and the
    font directory file ([Font.Table], [Font.KernTable], ...).

    Conventions.
    - Go's [int] is 64 bits wide; every integer of the parser comes from a
      16-bit field and is combined by at most one product of three such
      values, so [int] arithmetic never wraps and is modelled by [Z].
      The unsigned 16- and 32-bit types wrap explicitly ([wrap16],
      [wrap32]).
    - A byte slice is a [list Byte.byte].  Slicing and indexing out of
      range is a Go run-time panic, modelled by the outcome [Panic].
    - The two loops of the form [for i := start; i <= end; i++] over a
      16-bit counter take fuel; [OutOfFuel] is the outcome of a run that
      did not finish within it. *)

From Stdlib Require Import ZArith Lia.
From Stdlib.Strings Require Import Byte.
From stdpp Require Import base option list list_numbers sorting gmap.

Local Open Scope Z_scope.

(** ** Errors and outcomes *)

Definition Tag := Z.

Inductive error : Type :=
| ErrMissingTable                     (* errors.New("missing table") *)
| errInvalidGPOSKern                  (* errors.New("invalid GPOS kerning subtable") *)
| errUnsupportedClassDefFormat        (* errors.New("unsupported class definition format") *)
| errMissingGPOSKerning               (* errors.New("missing GPOS kerning information") *)
| errUnsupportedCoverageFormat (format : Z)
                                      (* fmt.Errorf("unsupported GPOS coverage format %d", format) *)
| errNotLayoutTable (tag : Tag)       (* fmt.Errorf("table %q is not a layout table", tag) *)
| errExternal (code : Z).             (* an error of a decoder outside these two files *)

Inductive result (A : Type) : Type :=
| Ok (a : A)
| Err (e : error)
| Panic
| OutOfFuel.

Arguments Ok {A} a.
Arguments Err {A} e.
Arguments Panic {A}.
Arguments OutOfFuel {A}.

#[global] Instance result_ret : MRet result := fun A a => Ok a.
#[global] Instance result_bind : MBind result := fun A B f r =>
  match r with
  | Ok a => f a
  | Err e => Err e
  | Panic => Panic
  | OutOfFuel => OutOfFuel
  end.

(** ** Machine integers *)

Definition wrap16 (x : Z) : Z := x mod 65536.
Definition wrap32 (x : Z) : Z := x mod 4294967296.

(** [int16(x)] for an [x] of type [uint16]. *)
Definition int16 (x : Z) : Z := if x <? 32768 then x else x - 65536.

(** Modelled from the spec: the declaration of [GlyphIndex] is not in the
    two files.  The spec calls it a non-negative integer; the code builds
    every glyph id by [GlyphIndex(be.Uint16(..))] and packs a pair of them
    as [uint32(a) << 16 | uint32(b)], so it is the unsigned 16-bit type and
    [i++] on it wraps at 65536. *)
Definition GlyphIndex := Z.
Definition GlyphIndex_incr (i : GlyphIndex) : GlyphIndex := wrap16 (i + 1).

(** ** Byte slices *)

Definition byteZ (b : Byte.byte) : Z := Z.of_N (Byte.to_N b).

Definition len {A} (l : list A) : Z := Z.of_nat (length l).

(** [b[lo:]] *)
Definition slice_from (b : list Byte.byte) (lo : Z) : result (list Byte.byte) :=
  if (lo <? 0) || (len b <? lo) then Panic else Ok (drop (Z.to_nat lo) b).

(** [binary.BigEndian.Uint16(b)]: [uint16(b[1]) | uint16(b[0])<<8]. *)
Definition be_Uint16 (b : list Byte.byte) : result Z :=
  match b with
  | b0 :: b1 :: _ => Ok (Z.lor (byteZ b1) (Z.shiftl (byteZ b0) 8))
  | _ => Panic
  end.

(** [be.Uint16(b[off:])] *)
Definition u16_at (b : list Byte.byte) (off : Z) : result Z :=
  s ← slice_from b off; be_Uint16 s.

(** [l[i]] as a read *)
Definition index {A} (l : list A) (i : Z) : result A :=
  if i <? 0 then Panic
  else match l !! Z.to_nat i with
       | Some x => Ok x
       | None => Panic
       end.

(** [l[i] = x] *)
Definition store {A} (l : list A) (i : Z) (x : A) : result (list A) :=
  if (i <? 0) || (len l <=? i) then Panic else Ok (<[Z.to_nat i := x]> l).

(** ** Counted loops

    [for i := i0; i < i0 + n; i++ { s = body(i, s) }] with an [int]
    counter; the number of iterations is known on entry. *)
Fixpoint for_loop {St : Type} (n : nat) (i : Z) (body : Z → St → result St) (s : St)
  : result St :=
  match n with
  | O => Ok s
  | S n' => s' ← body i s; for_loop n' (i + 1) body s'
  end.

(** [out := make([]T, num); for i := range out { out[i] = f(i) }] *)
Fixpoint fill_from {A : Type} (n : nat) (i : Z) (f : Z → result A) : result (list A) :=
  match n with
  | O => Ok []
  | S n' => x ← f i; xs ← fill_from n' (i + 1) f; Ok (x :: xs)
  end.

Definition fill {A : Type} (num : Z) (f : Z → result A) : result (list A) :=
  fill_from (Z.to_nat num) 0 f.

(** ** Coverage tables *)

Definition fetchCoverageList (buf : list Byte.byte) : result (list GlyphIndex) :=
  let headerSize := 2 in
  let entrySize := 2 in
  if len buf <? headerSize then Err errInvalidGPOSKern
  else
    num ← be_Uint16 buf;
    if len buf <? headerSize + num * entrySize then Err errInvalidGPOSKern
    else fill num (fun i => u16_at buf (headerSize + 2 * i)).

Record coverageRange : Type := {
  cr_start : GlyphIndex;
  cr_end : GlyphIndex;
  cr_startCoverage : Z
}.

(** [for i := cr.start; i <= cr.end; i++ { out = append(out, i) }] *)
Fixpoint coverageRange_expand (fuel : nat) (i end_ : GlyphIndex) (out : list GlyphIndex)
  : result (list GlyphIndex) :=
  match fuel with
  | O => OutOfFuel
  | S fuel' =>
      if i <=? end_
      then coverageRange_expand fuel' (GlyphIndex_incr i) end_ (out ++ [i])
      else Ok out
  end.

Fixpoint coverageRanges_list_from (fuel : nat) (crs : list coverageRange)
    (out : list GlyphIndex) : result (list GlyphIndex) :=
  match crs with
  | [] => Ok out
  | cr :: rest =>
      out' ← coverageRange_expand fuel (cr_start cr) (cr_end cr) out;
      coverageRanges_list_from fuel rest out'
  end.

Definition coverageRanges_list (fuel : nat) (crs : list coverageRange)
  : result (list GlyphIndex) :=
  coverageRanges_list_from fuel crs [].

Definition fetchCoverageRange (fuel : nat) (buf : list Byte.byte)
  : result (list GlyphIndex) :=
  let headerSize := 2 in
  let entrySize := 6 in
  if len buf <? headerSize then Err errInvalidGPOSKern
  else
    num ← be_Uint16 buf;
    if len buf <? headerSize + num * entrySize then Err errInvalidGPOSKern
    else
      out ← fill num (fun i =>
               s ← u16_at buf (headerSize + i * entrySize);
               e ← u16_at buf (headerSize + i * entrySize + 2);
               c ← u16_at buf (headerSize + i * entrySize + 4);
               Ok {| cr_start := s; cr_end := e; cr_startCoverage := c |});
      coverageRanges_list fuel out.

Definition fetchCoverage (fuel : nat) (buf : list Byte.byte) (offset : Z)
  : result (list GlyphIndex) :=
  if len buf <? offset + 2 then Err errInvalidGPOSKern
  else
    buf ← slice_from buf offset;
    format ← be_Uint16 buf;
    if format =? 1 then b ← slice_from buf 2; fetchCoverageList b
    else if format =? 2 then b ← slice_from buf 2; fetchCoverageRange fuel b
    else Err (errUnsupportedCoverageFormat format).

(** ** Class definitions *)

(** [class1]: ClassDef format 1. *)
Record class1 : Type := {
  startGlyph : GlyphIndex;
  targetClassIDs : list Z
}.

(** [classRangeRecord]: one record of ClassDef format 2. *)
Record classRangeRecord : Type := {
  crr_start : GlyphIndex;
  crr_end : GlyphIndex;
  crr_targetClassID : Z
}.

(** The interface [class] and its two implementations. *)
Inductive class : Type :=
| Class1 (c : class1)
| Class2 (c : list classRangeRecord).

(** [for i, target := range c.targetClassIDs { out[c.startGlyph+GlyphIndex(i)] = target }] *)
Fixpoint class1_classIDs_from (start : GlyphIndex) (i : Z) (targets : list Z)
    (out : gmap Z Z) : gmap Z Z :=
  match targets with
  | [] => out
  | target :: rest =>
      class1_classIDs_from start (i + 1) rest
        (<[wrap16 (start + wrap16 i) := target]> out)
  end.

Definition class1_classIDs (c : class1) : gmap Z Z :=
  class1_classIDs_from (startGlyph c) 0 (targetClassIDs c) ∅.

(** [for i := cr.start; i <= cr.end; i++ { out[i] = cr.targetClassID }] *)
Fixpoint classRange_expand (fuel : nat) (i end_ : GlyphIndex) (target : Z)
    (out : gmap Z Z) : result (gmap Z Z) :=
  match fuel with
  | O => OutOfFuel
  | S fuel' =>
      if i <=? end_
      then classRange_expand fuel' (GlyphIndex_incr i) end_ target (<[i := target]> out)
      else Ok out
  end.

Fixpoint class2_classIDs_from (fuel : nat) (c : list classRangeRecord)
    (out : gmap Z Z) : result (gmap Z Z) :=
  match c with
  | [] => Ok out
  | cr :: rest =>
      out' ← classRange_expand fuel (crr_start cr) (crr_end cr) (crr_targetClassID cr) out;
      class2_classIDs_from fuel rest out'
  end.

Definition class2_classIDs (fuel : nat) (c : list classRangeRecord) : result (gmap Z Z) :=
  class2_classIDs_from fuel c ∅.

Definition classIDs (fuel : nat) (c : class) : result (gmap Z Z) :=
  match c with
  | Class1 c => Ok (class1_classIDs c)
  | Class2 c => class2_classIDs fuel c
  end.

Definition fetchClassLookupFormat1 (buf : list Byte.byte) : result class1 :=
  let headerSize := 6 in
  if len buf <? headerSize then Err errInvalidGPOSKern
  else
    startGI ← u16_at buf 2;
    num ← u16_at buf 4;
    if len buf <? headerSize + num * 2 then Err errInvalidGPOSKern
    else
      ids ← fill num (fun i => u16_at buf (6 + i * 2));
      Ok {| startGlyph := startGI; targetClassIDs := ids |}.

Definition fetchClassLookupFormat2 (buf : list Byte.byte) : result (list classRangeRecord) :=
  let headerSize := 4 in
  if len buf <? headerSize then Err errInvalidGPOSKern
  else
    num ← u16_at buf 2;
    if len buf <? headerSize + num * 6 then Err errInvalidGPOSKern
    else
      fill num (fun i =>
        s ← u16_at buf (headerSize + i * 6);
        e ← u16_at buf (headerSize + i * 6 + 2);
        t ← u16_at buf (headerSize + i * 6 + 4);
        Ok {| crr_start := s; crr_end := e; crr_targetClassID := t |}).

Definition fetchClassLookup (buf : list Byte.byte) (offset : Z) : result class :=
  if len buf <? offset + 2 then Err errInvalidGPOSKern
  else
    buf ← slice_from buf offset;
    format ← be_Uint16 buf;
    if format =? 1 then c ← fetchClassLookupFormat1 buf; Ok (Class1 c)
    else if format =? 2 then c ← fetchClassLookupFormat2 buf; Ok (Class2 c)
    else Err errUnsupportedClassDefFormat.

(** ** Kerning sources *)

(** [simpleKerns]: [map[uint32]int16], keyed by [uint32(a)<<16 | uint32(b)]. *)
Abbreviation simpleKerns := (gmap Z Z).

Record classKerns : Type := {
  coverage : gset Z;          (* map[GlyphIndex]struct{} *)
  ck_class1 : gmap Z Z;       (* map[GlyphIndex]int *)
  ck_class2 : gmap Z Z;
  numClass2 : Z;
  kerns : list Z              (* []int16, size numClass1 * numClass2 *)
}.

(** The zero value [classKerns{}]. *)
Definition classKerns_zero : classKerns :=
  {| coverage := ∅; ck_class1 := ∅; ck_class2 := ∅; numClass2 := 0; kerns := [] |}.

(** A read [m[k]] of a Go map: the zero value when [k] is absent. *)
Definition map_get (m : gmap Z Z) (k : Z) : Z := default 0 (m !! k).

Definition classKerns_KernPair (c : classKerns) (left right : GlyphIndex)
  : result (Z * bool) :=
  if decide (left ∈ coverage c) then
    let idxa := map_get (ck_class1 c) left in
    let idxb := map_get (ck_class2 c) right in
    v ← index (kerns c) (idxb + idxa * numClass2 c);
    Ok (v, true)
  else Ok (0, false).

(** The interface [Kerns] with the implementations built in these files. *)
#[warnings="-register-all"]
Inductive Kerns : Type :=
| Kerns_simple (s : gmap Z Z)
| Kerns_class (c : classKerns)
| Kerns_unions (l : list Kerns).

(** ** Pair adjustment, format 1 *)

Definition fetchPairPosGlyph_body (glyphs : list Byte.byte) (offset highByte : Z)
    (i : Z) (out : simpleKerns) : result simpleKerns :=
  b ← u16_at glyphs (offset + 2 + i * 4);
  value ← u16_at glyphs (offset + 2 + i * 4 + 2);
  Ok (<[Z.lor highByte b := int16 value]> out).

Fixpoint fetchPairPosGlyph_from (idx : Z) (cov : list GlyphIndex) (num : Z)
    (glyphs : list Byte.byte) (out : simpleKerns) : result simpleKerns :=
  match cov with
  | [] => Ok out
  | a :: rest =>
      if idx >=? num then Err errInvalidGPOSKern
      else
        offset ← u16_at glyphs (10 + idx * 2);
        if offset + 1 >=? len glyphs then Err errInvalidGPOSKern
        else
          let highByte := wrap32 (Z.shiftl a 16) in
          count ← u16_at glyphs offset;
          out' ← for_loop (Z.to_nat count) 0
                   (fetchPairPosGlyph_body glyphs offset highByte) out;
          fetchPairPosGlyph_from (idx + 1) rest num glyphs out'
  end.

(** The Go function returns only an error and writes into [out]; here the
    written map is the value of a successful run. *)
Definition fetchPairPosGlyph (cov : list GlyphIndex) (num : Z)
    (glyphs : list Byte.byte) (out : simpleKerns) : result simpleKerns :=
  fetchPairPosGlyph_from 0 cov num glyphs out.

Definition parsePairPosFormat1 (buf : list Byte.byte) (cov : list GlyphIndex)
    (out : simpleKerns) : result simpleKerns :=
  let headerSize := 10 in
  if len buf <? headerSize then Err errInvalidGPOSKern
  else
    valueFormat1 ← u16_at buf 4;
    valueFormat2 ← u16_at buf 6;
    nPairs ← u16_at buf 8;
    if negb (valueFormat1 =? 4) || negb (valueFormat2 =? 0) then Ok out
    else if len buf <? headerSize + nPairs * 2 then Err errInvalidGPOSKern
    else
      lastPairSetOffset ← for_loop (Z.to_nat nPairs) 0
        (fun n last =>
           pairOffset ← u16_at buf (headerSize + n * 2);
           Ok (if pairOffset >? last then pairOffset else last)) 0;
      if len buf <? lastPairSetOffset + 2 then Err errInvalidGPOSKern
      else
        pairValueCount ← u16_at buf lastPairSetOffset;
        let lastPairSetLength := 2 + pairValueCount * 4 in
        let length := lastPairSetOffset + lastPairSetLength in
        if len buf <? length then Err errInvalidGPOSKern
        else fetchPairPosGlyph cov nPairs buf out.

(** ** Pair adjustment, format 2 *)

Definition fetchPairPosClass_row (buf : list Byte.byte) (num2 : Z) (i : Z)
    (kerns : list Z) : result (list Z) :=
  for_loop (Z.to_nat num2) 0
    (fun j kerns =>
       let index := j + i * num2 in
       v ← u16_at buf (index * 2);
       store kerns index (int16 v)) kerns.

Definition fetchPairPosClass (fuel : nat) (buf : list Byte.byte) (cov : list GlyphIndex)
    (num1 num2 : Z) (cdef1 cdef2 : class) : result classKerns :=
  if len buf <? num1 * num2 * 2 then Err errInvalidGPOSKern
  else
    kerns ← for_loop (Z.to_nat num1) 0 (fetchPairPosClass_row buf num2)
              (replicate (Z.to_nat (num1 * num2)) 0);
    let coverage := foldl (fun s c => {[c]} ∪ s) (∅ : gset Z) cov in
    c1 ← classIDs fuel cdef1;
    c2 ← classIDs fuel cdef2;
    Ok {| coverage := coverage; ck_class1 := c1; ck_class2 := c2;
          kerns := kerns; numClass2 := num2 |}.

Definition parsePairPosFormat2 (fuel : nat) (buf : list Byte.byte)
    (cov : list GlyphIndex) : result classKerns :=
  let headerSize := 16 in
  if len buf <? headerSize then Err errInvalidGPOSKern
  else
    valueFormat1 ← u16_at buf 4;
    valueFormat2 ← u16_at buf 6;
    if negb (valueFormat1 =? 4) || negb (valueFormat2 =? 0) then Ok classKerns_zero
    else
      cdef1Offset ← u16_at buf 8;
      cdef2Offset ← u16_at buf 10;
      numClass1 ← u16_at buf 12;
      numClass2 ← u16_at buf 14;
      cdef1 ← fetchClassLookup buf cdef1Offset;
      cdef2 ← fetchClassLookup buf cdef2Offset;
      b ← slice_from buf headerSize;
      fetchPairPosClass fuel b cov numClass1 numClass2 cdef1 cdef2.

(** ** The kern source composer *)

(** Modelled from the spec: the declarations of [TableLayout] and of its
    lookups are not in the two files.  [parseKern] reads of a lookup its
    [Type], its [subtableOffsets] and its [data]. *)
Record Lookup : Type := {
  lookup_Type : Z;
  subtableOffsets : list Z;
  data : list Byte.byte
}.

Record TableLayout : Type := {
  Lookups : list Lookup
}.

(** The body of [for _, subtableOffset := range lookup.subtableOffsets]; the
    state is ([simples], the class sources appended so far). *)
Definition parseKern_subtable (fuel : nat) (lookup : Lookup) (subtableOffset : Z)
    (st : simpleKerns * list Kerns) : result (simpleKerns * list Kerns) :=
  let '(simples, classes) := st in
  let b := data lookup in
  if len b <? 4 + subtableOffset then Err errInvalidGPOSKern
  else
    b ← slice_from b subtableOffset;
    format ← be_Uint16 b;
    coverageOffset ← u16_at b 2;
    cov ← fetchCoverage fuel b coverageOffset;
    if format =? 1 then
      simples' ← parsePairPosFormat1 b cov simples;
      Ok (simples', classes)
    else if format =? 2 then
      cl ← parsePairPosFormat2 fuel b cov;
      Ok (simples, classes ++ [Kerns_class cl])
    else Ok (simples, classes).

Fixpoint parseKern_subtables (fuel : nat) (lookup : Lookup) (offs : list Z)
    (st : simpleKerns * list Kerns) : result (simpleKerns * list Kerns) :=
  match offs with
  | [] => Ok st
  | o :: rest =>
      st' ← parseKern_subtable fuel lookup o st;
      parseKern_subtables fuel lookup rest st'
  end.

Fixpoint parseKern_lookups (fuel : nat) (ls : list Lookup)
    (st : simpleKerns * list Kerns) : result (simpleKerns * list Kerns) :=
  match ls with
  | [] => Ok st
  | lookup :: rest =>
      st' ← (if lookup_Type lookup =? 2
             then parseKern_subtables fuel lookup (subtableOffsets lookup) st
             else Ok st);
      parseKern_lookups fuel rest st'
  end.

(** [classes] starts as [kernUnions{nil}]; its slot 0 receives [simples] at
    the end, so the state only carries the slots after the first. *)
Definition parseKern (fuel : nat) (t : TableLayout) : result Kerns :=
  st ← parseKern_lookups fuel (Lookups t) (∅, []);
  let '(simples, classes) := st in
  if (len (Kerns_simple simples :: classes) =? 1) && (Z.of_nat (size simples) =? 0)
  then Err errMissingGPOSKerning
  else Ok (Kerns_unions (Kerns_simple simples :: classes)).

(** ** The table directory *)

(** Modelled from the spec: the interface [Table] and the table types are
    declared outside the two files.  The code here tells [*TableLayout]
    from every other kind of table. *)
Inductive Table : Type :=
| Table_Layout (l : TableLayout)
| Table_other (kind : Z).

(** Modelled from the spec: the tag constants are declared outside the two
    files; a tag is its four bytes read as a big-endian number. *)
Definition TagGpos : Tag := 0x47504F53.
Definition tagKern : Tag := 0x6B65726E.

(** [tableSection]; the cache slot [table] is [None] for Go's [nil]. *)
Record tableSection : Type := {
  ts_tag : Tag;
  ts_table : option Table;
  ts_offset : Z;
  ts_length : Z;
  ts_zLength : Z
}.

Definition set_table (s : tableSection) (t : Table) : tableSection :=
  {| ts_tag := ts_tag s; ts_table := Some t; ts_offset := ts_offset s;
     ts_length := ts_length s; ts_zLength := ts_zLength s |}.

(** [Font].  Each tag owns its section ([AddTable] allocates a new one), so
    the map of pointers is a map of sections and [s.table = t] rewrites the
    entry of the tag. *)
Record Font : Type := {
  scalerType : Tag;
  tables : gmap Tag tableSection
}.

Definition set_tables (font : Font) (m : gmap Tag tableSection) : Font :=
  {| scalerType := scalerType font; tables := m |}.

Definition HasTable (font : Font) (tag : Tag) : bool :=
  bool_decide (is_Some (tables font !! tag)).

Definition AddTable (font : Font) (tag : Tag) (table : option Table) : Font :=
  set_tables font
    (<[tag := {| ts_tag := tag; ts_table := table; ts_offset := 0;
                 ts_length := 0; ts_zLength := 0 |}]> (tables font)).

Definition RemoveTable (font : Font) (tag : Tag) : Font :=
  set_tables font (delete tag (tables font)).

(** A directory together with the record of the decodes run on it: the tag
    of every call of [font.parseTable], oldest first. *)
Record dir : Type := {
  d_font : Font;
  d_decodes : list Tag
}.

Section Directory.

(** The decoders that live outside the two files.  [parseTable] reads the
    font file, so its outcome may change from one call to the next: it
    receives the number of decodes run before it. *)
Variable parseTable : nat → tableSection → result Table.
Variable findTableBuffer : tableSection → result (list Byte.byte).
Variable parseKernTable : list Byte.byte → result Kerns.

Definition Font_Table (tag : Tag) (d : dir) : result Table * dir :=
  match tables (d_font d) !! tag with
  | None => (Err ErrMissingTable, d)
  | Some s =>
      match ts_table s with
      | None =>
          let log := d_decodes d ++ [tag] in
          match parseTable (length (d_decodes d)) s with
          | Ok t =>
              (Ok t,
               {| d_font := set_tables (d_font d)
                              (<[tag := set_table s t]> (tables (d_font d)));
                  d_decodes := log |})
          | Err e => (Err e, {| d_font := d_font d; d_decodes := log |})
          | Panic => (Panic, {| d_font := d_font d; d_decodes := log |})
          | OutOfFuel => (OutOfFuel, {| d_font := d_font d; d_decodes := log |})
          end
      | Some t => (Ok t, d)
      end
  end.

Definition Font_TableLayout (tag : Tag) (d : dir) : result TableLayout * dir :=
  let '(r, d') := Font_Table tag d in
  (t ← r;
   match t with
   | Table_Layout l => Ok l
   | Table_other _ => Err (errNotLayoutTable tag)
   end, d').

Definition GposTable (d : dir) : result TableLayout * dir :=
  Font_TableLayout TagGpos d.

Definition gposKerning (fuel : nat) (d : dir) : result Kerns * dir :=
  let '(r, d') := GposTable d in
  (gpos ← r; parseKern fuel gpos, d').

Definition kernKerning (d : dir) : result Kerns :=
  match tables (d_font d) !! tagKern with
  | None => Err ErrMissingTable
  | Some section =>
      buf ← findTableBuffer section;
      parseKernTable buf
  end.

(** [err != nil] *)
Definition failed {A} (r : result A) : bool :=
  match r with
  | Err _ => true
  | _ => false
  end.

Definition KernTable (fuel : nat) (kernFirst : bool) (d : dir) : result Kerns * dir :=
  if kernFirst then
    let r := kernKerning d in
    if failed r then gposKerning fuel d else (r, d)
  else
    let '(r, d') := gposKerning fuel d in
    if failed r then (kernKerning d', d') else (r, d').

(** The source tried first and the source tried after it. *)
Definition first_attempt (fuel : nat) (kernFirst : bool) (d : dir) : result Kerns * dir :=
  if kernFirst then (kernKerning d, d) else gposKerning fuel d.

Definition second_attempt (fuel : nat) (kernFirst : bool) (d : dir) : result Kerns * dir :=
  if kernFirst then gposKerning fuel d else (kernKerning d, d).

(** A run of calls [font.Table(tag)], one per tag of the list. *)
Fixpoint Table_calls (tags : list Tag) (d : dir) : dir :=
  match tags with
  | [] => d
  | tag :: rest => Table_calls rest (snd (Font_Table tag d))
  end.

End Directory.

(** How many times the decode of [tag] ran. *)
Definition decode_count (tag : Tag) (d : dir) : nat :=
  length (filter (fun t => t = tag) (d_decodes d)).

(** ** Vocabulary of the statements *)

(** The cache slot of [tag] holds [t]. *)
Definition cached (tag : Tag) (t : Table) (d : dir) : Prop :=
  ∃ s, tables (d_font d) !! tag = Some s ∧ ts_table s = Some t.

(** A value of an unsigned 16-bit field. *)
Definition is_uint16 (v : Z) : Prop := 0 ≤ v < 65536.

(** The entry of row [i] and column [j] of the matrix of a format-2
    subtable: row-major, 16-bit signed, after the 16-byte header, with
    [num2] entries in a row. *)
Definition matrix_entry (buf : list Byte.byte) (num2 i j : Z) : result Z :=
  v ← u16_at buf (16 + (i * num2 + j) * 2); Ok (int16 v).

(** The cells of [ks] below [bound] hold the entries read from [b]. *)
Definition kerns_filled (b : list Byte.byte) (size : nat) (bound : Z) (ks : list Z) : Prop :=
  length ks = size ∧
  ∀ idx, 0 ≤ idx < bound →
    ∃ v, u16_at b (idx * 2) = Ok v ∧ ks !! Z.to_nat idx = Some (int16 v).

(** ** Sample inputs

    Subtables and fonts on which the statements below are evaluated. *)

(** A format-1 pair adjustment subtable of 26 bytes: value formats (4, 0),
    two PairSet offsets 22 and 24, a format-1 coverage table for the glyphs
    5 and 6 at offset 14, the PairSet at 22 declaring two records and the
    PairSet at 24 declaring none.  The PairSet at the largest offset fits
    in the buffer; the records of the one before it do not. *)
Definition inner_overrun_subtable : list Byte.byte :=
  [x00; x01; x00; x0e; x00; x04; x00; x00; x00; x02; x00; x16;
   x00; x18; x00; x01; x00; x02; x00; x05; x00; x06; x00; x02;
   x00; x00].

(** The same subtable with a coverage table of three glyphs (5, 6, 7) for
    its two PairSets; 28 bytes, PairSets at 24 and 26. *)
Definition long_coverage_subtable : list Byte.byte :=
  [x00; x01; x00; x0e; x00; x04; x00; x00; x00; x02; x00; x18;
   x00; x1a; x00; x01; x00; x03; x00; x05; x00; x06; x00; x07;
   x00; x02; x00; x00].

(** A format-2 pair adjustment subtable whose first value format is 5 (not
    the supported 4), with an empty format-1 coverage table at offset 16. *)
Definition gated_format2_subtable : list Byte.byte :=
  [x00; x02; x00; x10; x00; x05; x00; x00; x00; x00; x00; x00;
   x00; x00; x00; x00; x00; x01; x00; x00].

(** A format-1 pair adjustment subtable whose first value format is 5, with
    an empty format-1 coverage table at offset 10. *)
Definition gated_format1_subtable : list Byte.byte :=
  [x00; x01; x00; x0a; x00; x05; x00; x00; x00; x00; x00; x01;
   x00; x00].

(** A format-2 pair adjustment subtable with value formats (4, 0),
    class1Count = class2Count = 1, the one matrix entry -10, coverage {5}
    at offset 18, a format-1 ClassDef at offset 24 putting glyph 5 in
    class 7, and an empty format-2 ClassDef at offset 32. *)
Definition wide_class1_subtable : list Byte.byte :=
  [x00; x02; x00; x12; x00; x04; x00; x00; x00; x18; x00; x20;
   x00; x01; x00; x01; xff; xf6; x00; x01; x00; x01; x00; x05;
   x00; x01; x00; x05; x00; x01; x00; x07; x00; x02; x00; x00].

(** As above, but the first ClassDef (offset 24) is the empty one and the
    second (offset 28) puts glyph 9 in class 3. *)
Definition wide_class2_subtable : list Byte.byte :=
  [x00; x02; x00; x12; x00; x04; x00; x00; x00; x18; x00; x1c;
   x00; x01; x00; x01; xff; xf6; x00; x01; x00; x01; x00; x05;
   x00; x02; x00; x00; x00; x01; x00; x09; x00; x01; x00; x03].

(** A well-formed format-2 subtable: class1Count = 2, class2Count = 1,
    matrix [[-10], [-20]], coverage {5, 6} at offset 20, a ClassDef at
    offset 28 with glyph 5 in class 0 and glyph 6 in class 1, and a
    ClassDef at offset 38 with glyph 9 in class 0. *)
Definition class_pair_subtable : list Byte.byte :=
  [x00; x02; x00; x14; x00; x04; x00; x00; x00; x1c; x00; x26;
   x00; x02; x00; x01; xff; xf6; xff; xec; x00; x01; x00; x02;
   x00; x05; x00; x06; x00; x01; x00; x05; x00; x02; x00; x00;
   x00; x01; x00; x01; x00; x09; x00; x01; x00; x00].

(** A format-2 coverage table with the single range 0..65535. *)
Definition full_range_coverage : list Byte.byte :=
  [x00; x02; x00; x01; x00; x00; xff; xff; x00; x00].

(** A format-2 pair adjustment subtable with value formats (4, 0), a 1 x 1
    matrix, coverage {5} at offset 18, a format-2 ClassDef at offset 24
    with the single range 0..65535 of class 0, and an empty format-2
    ClassDef at offset 34. *)
Definition full_range_class_subtable : list Byte.byte :=
  [x00; x02; x00; x12; x00; x04; x00; x00; x00; x18; x00; x22;
   x00; x01; x00; x01; xff; xf6; x00; x01; x00; x01; x00; x05;
   x00; x02; x00; x01; x00; x00; xff; xff; x00; x00; x00; x02;
   x00; x00].

(** A layout table with one pair adjustment lookup holding one subtable. *)
Definition layout_of (subtable : list Byte.byte) : TableLayout :=
  {| Lookups := [ {| lookup_Type := 2; subtableOffsets := [0]; data := subtable |} ] |}.

(** A font whose GPOS table is present and decoded, with a subtable cut
    after two bytes, and whose kern table is present. *)
Definition truncated_gpos_font : Font :=
  AddTable
    (AddTable {| scalerType := 0x00010000; tables := ∅ |} tagKern None)
    TagGpos (Some (Table_Layout (layout_of [x00; x01]))).

(** A font with one table not decoded yet. *)
Definition one_table_font : Font :=
  AddTable {| scalerType := 0x00010000; tables := ∅ |} TagGpos None.

(** Stand-ins for the decoders outside the two files. *)
Definition parseTable_failing : nat → tableSection → result Table :=
  fun _ _ => Err (errExternal 1).

(** Fails on its first call, decodes an empty layout table afterwards. *)
Definition parseTable_flaky : nat → tableSection → result Table :=
  fun n _ => match n with
             | O => Err (errExternal 1)
             | S _ => Ok (Table_Layout {| Lookups := [] |})
             end.

Definition findTableBuffer_empty : tableSection → result (list Byte.byte) :=
  fun _ => Ok [].

Definition parseKernTable_empty : list Byte.byte → result Kerns :=
  fun _ => Ok (Kerns_simple ∅).

(** ** The rest of the directory *)

(** [Font.Tags]: the keys of the tag map, collected in the unspecified
    order of a Go map range and then sorted by their number.  The keys of a
    map are distinct, so the sorted slice does not depend on the order of
    the range nor on the choice [sort.Slice] makes between equal keys. *)
Definition Tags (font : Font) : list Tag :=
  merge_sort Z.le (elements (dom (tables font))).

(** What [StrictParse] returns: the font, or the error of [Parse], or the
    error "failed to parse <tag>: <err>" of the first table that does not
    decode; a panic or a run out of fuel of a decoder passes through. *)
Inductive strict_outcome : Type :=
| Strict_font (d : dir)
| Strict_parse_error (e : error)
| Strict_failed_to_parse (tag : Tag) (e : error)
| Strict_panic
| Strict_out_of_fuel.

Section StrictParsing.

Variable parseTable : nat → tableSection → result Table.

(** [for _, tag := range font.Tags() { if _, err := font.Table(tag); err != nil {...} }] *)
Fixpoint StrictParse_tables (tags : list Tag) (d : dir) : strict_outcome :=
  match tags with
  | [] => Strict_font d
  | tag :: rest =>
      let '(r, d') := Font_Table parseTable tag d in
      match r with
      | Ok _ => StrictParse_tables rest d'
      | Err e => Strict_failed_to_parse tag e
      | Panic => Strict_panic
      | OutOfFuel => Strict_out_of_fuel
      end
  end.

(** [StrictParse]; [parsed] is the outcome of [Parse(file)], a decoder
    outside the two files. *)
Definition StrictParse (parsed : result dir) : strict_outcome :=
  match parsed with
  | Ok d => StrictParse_tables (Tags (d_font d)) d
  | Err e => Strict_parse_error e
  | Panic => Strict_panic
  | OutOfFuel => Strict_out_of_fuel
  end.

End StrictParsing.

(** ** More vocabulary *)

(** The key of the simple source for the pair (a, b):
    [uint32(a)<<16 | uint32(b)]. *)
Definition pair_key (a b : GlyphIndex) : Z := Z.lor (wrap32 (Z.shiftl a 16)) b.

(** The glyphs of a coverage range, in ascending order; none when the
    range ends before it starts. *)
Definition range_glyphs (cr : coverageRange) : list GlyphIndex :=
  seqZ (cr_start cr) (cr_end cr - cr_start cr + 1).

(** The class of [g] by the last range record that holds it. *)
Definition class2_lookup (c : list classRangeRecord) (g : GlyphIndex) : option Z :=
  foldl (fun acc cr =>
           if decide (crr_start cr ≤ g ≤ crr_end cr)
           then Some (crr_targetClassID cr) else acc) None c.

(** The subtable of [lookup] at offset [o] has the format field [format]. *)
Definition has_format (format : Z) (lookup : Lookup) (o : Z) : bool :=
  match u16_at (data lookup) o with
  | Ok f => f =? format
  | _ => false
  end.

(** The number of format-2 subtables in the pair adjustment lookups. *)
Definition format2_subtables (ls : list Lookup) : nat :=
  sum_list ((fun lookup =>
               if lookup_Type lookup =? 2
               then length (filter (fun o => has_format 2 lookup o = true)
                              (subtableOffsets lookup))
               else O) <$> ls).

(** The format-2 subtables of the type-2 lookups, in the order in which
    [parseKern] scans them: lookup after lookup, offset after offset. *)
Definition format2_scan (ls : list Lookup) : list (Lookup * Z) :=
  concat ((fun lookup =>
             if lookup_Type lookup =? 2
             then (fun o => (lookup, o)) <$>
                    filter (fun o => has_format 2 lookup o = true)
                      (subtableOffsets lookup)
             else []) <$> ls).

(** The class source of the subtable of [lookup] at offset [o]: its
    coverage is decoded at the offset it declares, then the format-2 parser
    runs on the subtable. *)
Definition class_source_of (fuel : nat) (lookup : Lookup) (o : Z) : result classKerns :=
  b ← slice_from (data lookup) o;
  coverageOffset ← u16_at b 2;
  cov ← fetchCoverage fuel b coverageOffset;
  parsePairPosFormat2 fuel b cov.

(** The errors of the GPOS kerning parser. *)
Definition kerning_error (e : error) : Prop :=
  e = errInvalidGPOSKern ∨ e = errUnsupportedClassDefFormat ∨
  e = errMissingGPOSKerning ∨ ∃ format, e = errUnsupportedCoverageFormat format.


(** * Properties *)

(** ** Outcomes and 16-bit reads *)

Lemma bind_Ok {A B} (r : result A) (f : A → result B) (b : B) :
  r ≫= f = Ok b → ∃ a, r = Ok a ∧ f a = Ok b.
Proof. destruct r; simpl; intros H; try discriminate. by exists a. Qed.

(** Splits a successful sequence [x ← r; k] into its two successful parts. *)
Ltac bind_ok H :=
  let x := fresh "x" in
  let Hx := fresh "H" x in
  apply bind_Ok in H; destruct H as (x & Hx & H).

Ltac bind_named H x Hx :=
  apply bind_Ok in H; destruct H as (x & Hx & H).

Lemma byteZ_range (b : Byte.byte) : 0 ≤ byteZ b < 256.
Proof.
  unfold byteZ. pose proof (Byte.to_N_bounded b) as Hb. lia.
Qed.

Lemma uint16_of_bytes_range (hi lo : Z) :
  0 ≤ hi < 256 → 0 ≤ lo < 256 → 0 ≤ Z.lor lo (Z.shiftl hi 8) < 65536.
Proof.
  intros Hhi Hlo.
  rewrite Z.shiftl_mul_pow2 by lia.
  change (2 ^ 8) with 256.
  pose proof (Z.add_lor_land lo (hi * 256)) as Hsum.
  assert (0 ≤ Z.land lo (hi * 256)) by (apply Z.land_nonneg; lia).
  assert (0 ≤ Z.lor lo (hi * 256)) by (apply Z.lor_nonneg; lia).
  lia.
Qed.

Lemma be_Uint16_range (b : list Byte.byte) (v : Z) :
  be_Uint16 b = Ok v → 0 ≤ v < 65536.
Proof.
  destruct b as [|b0 [|b1 rest]]; simpl; intros H; try discriminate.
  injection H as <-. apply uint16_of_bytes_range; apply byteZ_range.
Qed.

Lemma u16_at_range (b : list Byte.byte) (off v : Z) :
  u16_at b off = Ok v → 0 ≤ v < 65536.
Proof.
  unfold u16_at. intros H. bind_ok H. by eapply be_Uint16_range.
Qed.

Lemma slice_from_0 (b : list Byte.byte) : slice_from b 0 = Ok b.
Proof.
  unfold slice_from, len.
  replace (Z.of_nat (length b) <? 0) with false by (symmetry; apply Z.ltb_ge; lia).
  reflexivity.
Qed.

Lemma slice_from_Ok (buf b : list Byte.byte) (k : Z) :
  slice_from buf k = Ok b → 0 ≤ k ≤ len buf ∧ b = drop (Z.to_nat k) buf.
Proof.
  unfold slice_from. destruct (k <? 0) eqn:Hk1; [discriminate|].
  destruct (len buf <? k) eqn:Hk2; [discriminate|]. simpl.
  apply Z.ltb_ge in Hk1, Hk2. intros [= <-]. done.
Qed.

(** ** The range loops *)

Lemma GlyphIndex_incr_range (i : GlyphIndex) : 0 ≤ GlyphIndex_incr i < 65536.
Proof. unfold GlyphIndex_incr, wrap16. apply Z.mod_pos_bound. lia. Qed.

(** With [end = 65535] the test [i <= end] holds for every 16-bit [i]: the
    loop never leaves. *)
Lemma coverageRange_expand_full (fuel : nat) :
  ∀ (i : GlyphIndex) (out : list GlyphIndex),
    0 ≤ i < 65536 → coverageRange_expand fuel i 65535 out = OutOfFuel.
Proof.
  induction fuel as [|fuel IH]; intros i out Hi; simpl; [reflexivity|].
  replace (i <=? 65535) with true by (symmetry; apply Z.leb_le; lia).
  apply IH, GlyphIndex_incr_range.
Qed.

Lemma classRange_expand_full (fuel : nat) :
  ∀ (i : GlyphIndex) (target : Z) (out : gmap Z Z),
    0 ≤ i < 65536 → classRange_expand fuel i 65535 target out = OutOfFuel.
Proof.
  induction fuel as [|fuel IH]; intros i target out Hi; simpl; [reflexivity|].
  replace (i <=? 65535) with true by (symmetry; apply Z.leb_le; lia).
  apply IH, GlyphIndex_incr_range.
Qed.

(** Below the maximum the loop leaves after [end - start + 1] rounds. *)
Lemma coverageRange_expand_finishes (fuel : nat) :
  ∀ (i end_ : GlyphIndex) (out : list GlyphIndex),
    0 ≤ i → end_ < 65535 → (Z.to_nat (end_ - i + 1) < fuel)%nat →
    ∃ out', coverageRange_expand fuel i end_ out = Ok out'.
Proof.
  induction fuel as [|fuel IH]; intros i end_ out Hi He Hf; [lia|].
  simpl. destruct (i <=? end_) eqn:Hle; [|by eexists].
  apply Z.leb_le in Hle.
  assert (GlyphIndex_incr i = i + 1) as ->.
  { unfold GlyphIndex_incr, wrap16. apply Z.mod_small. lia. }
  apply IH; lia.
Qed.

(** C3 (code as written): the pointwise expansion of a range whose
    endGlyph is the maximum glyph index 65535 does not terminate.  Decoding
    the coverage table with the single range 0..65535 runs out of every
    amount of fuel, and so does the format-2 parser on a subtable whose
    class definition holds the range 0..65535. *)
Theorem range_expansion_diverges_at_max_glyph :
  (∀ fuel, fetchCoverage fuel full_range_coverage 0 = OutOfFuel) ∧
  (∀ fuel, parsePairPosFormat2 fuel full_range_class_subtable [5] = OutOfFuel).
Proof.
  split; intros fuel.
  - change (fetchCoverage fuel full_range_coverage 0)
      with (coverageRanges_list fuel
              [{| cr_start := 0; cr_end := 65535; cr_startCoverage := 0 |}]).
    unfold coverageRanges_list. simpl.
    by rewrite coverageRange_expand_full.
  - cbv -[classRange_expand].
    by rewrite classRange_expand_full.
Qed.

(** ** Coverage formats *)

Lemma be_Uint16_Ok_len (b : list Byte.byte) (v : Z) :
  be_Uint16 b = Ok v → 2 ≤ len b.
Proof.
  destruct b as [|b0 [|b1 rest]]; simpl; intros H; try discriminate.
  unfold len. simpl. lia.
Qed.

(** A buffer too short for the format field is an invalid subtable. *)
Lemma fetchCoverage_short (fuel : nat) (buf : list Byte.byte) (offset : Z) :
  len buf < offset + 2 → fetchCoverage fuel buf offset = Err errInvalidGPOSKern.
Proof.
  intros Hlen. unfold fetchCoverage.
  by replace (len buf <? offset + 2) with true by (symmetry; apply Z.ltb_lt; lia).
Qed.

(** C9 (amended): when the two bytes of the format field can be read, a
    coverage format other than 1 and 2 fails with the error "unsupported
    GPOS coverage format <format>", which carries the format and is not the
    invalid-subtable error. *)
Theorem fetchCoverage_other_format (fuel : nat) (buf : list Byte.byte)
    (offset format : Z) :
  u16_at buf offset = Ok format → format ≠ 1 → format ≠ 2 →
  fetchCoverage fuel buf offset = Err (errUnsupportedCoverageFormat format).
Proof.
  intros Hfmt H1 H2. unfold fetchCoverage.
  unfold u16_at in Hfmt. bind_ok Hfmt.
  pose proof (be_Uint16_Ok_len _ _ Hfmt) as Hlen.
  pose proof (slice_from_Ok _ _ _ Hx) as [Hoff ->].
  unfold len in Hlen. rewrite length_drop in Hlen.
  replace (len buf <? offset + 2) with false
    by (symmetry; apply Z.ltb_ge; unfold len; lia).
  rewrite Hx. simpl. rewrite Hfmt. simpl.
  destruct (Z.eqb_spec format 1); [done|].
  destruct (Z.eqb_spec format 2); done.
Qed.

Lemma fetchCoverage_other_format_witness :
  fetchCoverage 0 [x00; x00; x07; x00] 1 = Err (errUnsupportedCoverageFormat 7).
Proof.
  apply (fetchCoverage_other_format 0 [x00; x00; x07; x00] 1 7);
    [reflexivity | lia | lia].
Defined.

(** C9 (as stated) fails: format 3 is not reported as an invalid subtable. *)
Lemma fetchCoverage_format3_not_invalid :
  fetchCoverage 0 [x00; x03] 0 = Err (errUnsupportedCoverageFormat 3) ∧
  fetchCoverage 0 [x00; x03] 0 ≠ Err errInvalidGPOSKern.
Proof. split; [reflexivity | discriminate]. Qed.

(** ** Pair adjustment, format 1 *)

(** C2 (code as written): a PairSet that is not at the largest offset and
    declares more records than the buffer holds is read past the end of
    the buffer.  On [inner_overrun_subtable] the coverage decodes to the
    glyphs 5 and 6, every check of [parsePairPosFormat1] passes, and the
    second record read of the PairSet at offset 22 panics. *)
Theorem inner_PairSet_read_out_of_bounds :
  fetchCoverage 0 inner_overrun_subtable 14 = Ok [5; 6] ∧
  parsePairPosFormat1 inner_overrun_subtable [5; 6] ∅ = Panic ∧
  parseKern 0 (layout_of inner_overrun_subtable) = Panic.
Proof. repeat split; vm_compute; reflexivity. Qed.

(** More covered glyphs than PairSets: the loop over the coverage never
    ends with success. *)
Lemma fetchPairPosGlyph_from_too_many (cov : list GlyphIndex) :
  ∀ (idx num : Z) (glyphs : list Byte.byte) (out m : simpleKerns),
    idx ≤ num → num - idx < len cov →
    fetchPairPosGlyph_from idx cov num glyphs out ≠ Ok m.
Proof.
  induction cov as [|a rest IH]; intros idx num glyphs out m Hidx Hlen.
  - unfold len in Hlen. simpl in Hlen. lia.
  - simpl. destruct (idx >=? num) eqn:Hge; [discriminate|].
    intros H. bind_ok H.
    destruct (x + 1 >=? len glyphs); [discriminate|].
    bind_ok H. bind_ok H.
    revert H. apply IH; [lia|].
    unfold len in *. simpl length in Hlen. lia.
Qed.

(** With the supported value formats, a coverage longer than pairSetCount
    is never accepted. *)
Lemma parsePairPosFormat1_too_many (buf : list Byte.byte) (cov : list GlyphIndex)
    (out m : simpleKerns) (nPairs : Z) :
  u16_at buf 4 = Ok 4 → u16_at buf 6 = Ok 0 → u16_at buf 8 = Ok nPairs →
  nPairs < len cov →
  parsePairPosFormat1 buf cov out ≠ Ok m.
Proof.
  intros H4 H6 H8 Hlen. unfold parsePairPosFormat1.
  destruct (len buf <? 10); [discriminate|].
  rewrite H4, H6, H8. simpl.
  destruct (len buf <? 10 + nPairs * 2); [discriminate|].
  intros H. bind_ok H.
  destruct (len buf <? x + 2); [discriminate|].
  bind_ok H.
  destruct (len buf <? x + (2 + x0 * 4)); [discriminate|].
  revert H. unfold fetchPairPosGlyph.
  apply fetchPairPosGlyph_from_too_many; [|lia].
  apply u16_at_range in H8. lia.
Qed.

(** C10 (code as written): the check of the coverage index against
    pairSetCount is reached only after the PairSets of the earlier glyphs
    were read.  On [long_coverage_subtable] (supported value formats, three
    covered glyphs, pairSetCount 2) the read of the first PairSet panics
    before the third glyph is looked at, so the failure is not the
    invalid-subtable error. *)
Theorem long_coverage_panics_before_count_check :
  u16_at long_coverage_subtable 4 = Ok 4 ∧
  u16_at long_coverage_subtable 6 = Ok 0 ∧
  u16_at long_coverage_subtable 8 = Ok 2 ∧
  fetchCoverage 0 long_coverage_subtable 14 = Ok [5; 6; 7] ∧
  parsePairPosFormat1 long_coverage_subtable [5; 6; 7] ∅ = Panic ∧
  parseKern 0 (layout_of long_coverage_subtable) = Panic.
Proof. repeat split; vm_compute; reflexivity. Qed.

(** ** The value-format gate *)

(** A format-1 subtable with other value formats leaves the simple source
    as it was. *)
Lemma parsePairPosFormat1_gated (buf : list Byte.byte) (cov : list GlyphIndex)
    (out : simpleKerns) (vf1 vf2 nPairs : Z) :
  10 ≤ len buf →
  u16_at buf 4 = Ok vf1 → u16_at buf 6 = Ok vf2 → u16_at buf 8 = Ok nPairs →
  vf1 ≠ 4 ∨ vf2 ≠ 0 →
  parsePairPosFormat1 buf cov out = Ok out.
Proof.
  intros Hlen H4 H6 H8 Hgate. unfold parsePairPosFormat1.
  replace (len buf <? 10) with false by (symmetry; apply Z.ltb_ge; lia).
  rewrite H4, H6, H8. simpl.
  destruct (vf1 =? 4) eqn:E1; destruct (vf2 =? 0) eqn:E2; simpl; try reflexivity.
  apply Z.eqb_eq in E1, E2. lia.
Qed.

(** A format-2 subtable with other value formats gives the zero value
    [classKerns{}], without error. *)
Lemma parsePairPosFormat2_gated (fuel : nat) (buf : list Byte.byte)
    (cov : list GlyphIndex) (vf1 vf2 : Z) :
  16 ≤ len buf →
  u16_at buf 4 = Ok vf1 → u16_at buf 6 = Ok vf2 →
  vf1 ≠ 4 ∨ vf2 ≠ 0 →
  parsePairPosFormat2 fuel buf cov = Ok classKerns_zero.
Proof.
  intros Hlen H4 H6 Hgate. unfold parsePairPosFormat2.
  replace (len buf <? 16) with false by (symmetry; apply Z.ltb_ge; lia).
  rewrite H4, H6. simpl.
  destruct (vf1 =? 4) eqn:E1; destruct (vf2 =? 0) eqn:E2; simpl; try reflexivity.
  apply Z.eqb_eq in E1, E2. lia.
Qed.

(** C5 (code as written): a gated format-1 subtable alone makes
    [parseKern] fail with the missing-kerning-information error, but a
    gated format-2 subtable does not: its zero-valued class source is
    appended to the kern set, the set has two slots, and [parseKern]
    succeeds with a set that holds no pair data. *)
Theorem gated_format2_subtable_is_appended :
  parsePairPosFormat2 0 gated_format2_subtable [] = Ok classKerns_zero ∧
  parseKern 0 (layout_of gated_format2_subtable)
    = Ok (Kerns_unions [Kerns_simple ∅; Kerns_class classKerns_zero]) ∧
  parseKern 0 (layout_of gated_format1_subtable) = Err errMissingGPOSKerning.
Proof. repeat split; vm_compute; reflexivity. Qed.

(** ** The table directory *)

Section DirectoryFacts.

Variable parseTable : nat → tableSection → result Table.

Lemma Font_Table_cached (tag : Tag) (t : Table) (d : dir) :
  cached tag t d → Font_Table parseTable tag d = (Ok t, d).
Proof.
  intros (s & Hs & Ht). unfold Font_Table. by rewrite Hs, Ht.
Qed.

Lemma Font_Table_Ok_cached (tag : Tag) (t : Table) (d d' : dir) :
  Font_Table parseTable tag d = (Ok t, d') → cached tag t d'.
Proof.
  unfold Font_Table, cached.
  destruct (tables (d_font d) !! tag) as [s|] eqn:Hs; [|discriminate].
  destruct (ts_table s) as [t0|] eqn:Ht.
  - intros [= <- <-]. eauto.
  - destruct (parseTable _ s); intros [= <- <-]. simpl.
    rewrite lookup_insert_eq. eauto.
Qed.

Lemma decode_count_app (tag tag' : Tag) (font : Font) (log : list Tag) :
  decode_count tag {| d_font := font; d_decodes := log ++ [tag'] |}
  = if decide (tag' = tag) then S (decode_count tag {| d_font := font; d_decodes := log |})
    else decode_count tag {| d_font := font; d_decodes := log |}.
Proof.
  unfold decode_count. simpl. rewrite filter_app, length_app.
  rewrite filter_cons, filter_nil.
  destruct (decide (tag' = tag)); simpl; lia.
Qed.

(** A call for any tag keeps what is cached for [tag] and does not decode
    [tag]. *)
Lemma Font_Table_keeps_cached (tag tag' : Tag) (t : Table) (d : dir) :
  cached tag t d →
  cached tag t (snd (Font_Table parseTable tag' d)) ∧
  decode_count tag (snd (Font_Table parseTable tag' d)) = decode_count tag d.
Proof.
  intros Hc. destruct (decide (tag' = tag)) as [->|Hne].
  { rewrite (Font_Table_cached tag t d Hc). by split. }
  destruct Hc as (s & Hs & Ht). destruct d as [font log].
  unfold Font_Table. simpl in *.
  destruct (tables font !! tag') as [s'|] eqn:Hs'; [|split; [by exists s|done]].
  destruct (ts_table s') as [t'|]; [split; [by exists s|done]|].
  destruct (parseTable (length log) s'); simpl;
    (split; [|rewrite decode_count_app; by destruct (decide (tag' = tag))]);
    exists s; simpl; try done.
  by rewrite lookup_insert_ne.
Qed.

Lemma Table_calls_keep_cached (tags : list Tag) :
  ∀ (tag : Tag) (t : Table) (d : dir),
    cached tag t d →
    cached tag t (Table_calls parseTable tags d) ∧
    decode_count tag (Table_calls parseTable tags d) = decode_count tag d.
Proof.
  induction tags as [|tag' rest IH]; intros tag t d Hc; simpl; [by split|].
  destruct (Font_Table_keeps_cached tag tag' t d Hc) as [Hc' Hn].
  destruct (IH tag t _ Hc') as [Hc'' Hn'].
  split; [done | congruence].
Qed.

(** C7 (amended): the decode of a tag runs at most once with success.
    Once a call [Table(tag)] has succeeded with the table [t], no later
    run of [Table] calls (for any tags) decodes [tag] again, and a call
    [Table(tag)] after it returns the same [t] and leaves the directory
    as it is. *)
Theorem Table_decodes_once_after_success (tag : Tag) (t : Table) (d d1 : dir)
    (tags : list Tag) :
  Font_Table parseTable tag d = (Ok t, d1) →
  decode_count tag (Table_calls parseTable tags d1) = decode_count tag d1 ∧
  (decode_count tag d1 ≤ S (decode_count tag d))%nat ∧
  Font_Table parseTable tag (Table_calls parseTable tags d1)
    = (Ok t, Table_calls parseTable tags d1).
Proof.
  intros Hok.
  pose proof (Font_Table_Ok_cached tag t d d1 Hok) as Hc.
  destruct (Table_calls_keep_cached tags tag t d1 Hc) as [Hc' Hn].
  split; [done|]. split; [|by apply Font_Table_cached].
  revert Hok. unfold Font_Table. destruct d as [font log]. simpl.
  destruct (tables font !! tag) as [s|]; [|discriminate].
  destruct (ts_table s); [intros [= <- <-]; unfold decode_count; simpl; lia|].
  destruct (parseTable (length log) s); intros [= <- <-].
  rewrite decode_count_app. destruct (decide (tag = tag)); [|done].
  unfold decode_count. simpl. lia.
Qed.

(** C8: a failing call [Table(tag)] leaves every entry of the directory
    as it was, the cache slot of [tag] included.  The failure is either
    the missing-table error for an absent tag, with no decode run, or the
    error of the decode that this call ran; in the second case the slot
    is still empty and every later call on the same directory runs the
    decode again. *)
Theorem Table_failure_not_cached (tag : Tag) (e : error) (d d' : dir) :
  Font_Table parseTable tag d = (Err e, d') →
  d_font d' = d_font d ∧
  ((tables (d_font d) !! tag = None ∧ e = ErrMissingTable ∧ d' = d) ∨
   (∃ s, tables (d_font d) !! tag = Some s ∧ ts_table s = None ∧
         parseTable (length (d_decodes d)) s = Err e ∧
         d_decodes d' = d_decodes d ++ [tag] ∧
         ∀ r d'', Font_Table parseTable tag d' = (r, d'') →
                  r = parseTable (length (d_decodes d')) s ∧
                  d_decodes d'' = d_decodes d' ++ [tag])).
Proof.
  unfold Font_Table at 1.
  destruct (tables (d_font d) !! tag) as [s|] eqn:Hs.
  - destruct (ts_table s) as [t|] eqn:Ht; [discriminate|].
    destruct (parseTable (length (d_decodes d)) s) eqn:Hp; intros Heq;
      try discriminate.
    injection Heq as <- <-.
    simpl. split; [done|]. right. exists s.
    split; [done|]. split; [done|]. split; [done|]. split; [done|].
    intros r d''. unfold Font_Table. simpl. rewrite Hs, Ht.
    destruct (parseTable (length (d_decodes d ++ [tag])) s); by intros [= <- <-].
  - intros [= <- <-]. split; [done|]. by left.
Qed.

End DirectoryFacts.

Lemma Table_decodes_once_after_success_witness :
  decode_count TagGpos
    (Table_calls parseTable_flaky [tagKern; TagGpos; TagGpos]
       (snd (Font_Table parseTable_flaky TagGpos
               {| d_font := one_table_font; d_decodes := [TagGpos] |})))
  = decode_count TagGpos
      (snd (Font_Table parseTable_flaky TagGpos
              {| d_font := one_table_font; d_decodes := [TagGpos] |})).
Proof.
  refine (proj1 (Table_decodes_once_after_success parseTable_flaky TagGpos
                   (Table_Layout {| Lookups := [] |})
                   {| d_font := one_table_font; d_decodes := [TagGpos] |}
                   (snd (Font_Table parseTable_flaky TagGpos
                           {| d_font := one_table_font; d_decodes := [TagGpos] |}))
                   [tagKern; TagGpos; TagGpos] _)).
  vm_compute. reflexivity.
Defined.

Lemma Table_failure_not_cached_witness :
  d_font (snd (Font_Table parseTable_flaky TagGpos
                 {| d_font := one_table_font; d_decodes := [] |}))
  = one_table_font.
Proof.
  refine (proj1 (Table_failure_not_cached parseTable_flaky TagGpos (errExternal 1)
                   {| d_font := one_table_font; d_decodes := [] |} _ _)).
  vm_compute. reflexivity.
Defined.

(** C7 (as stated) fails: a decode that fails is run again by the next
    call, so two calls for one tag can run its decode twice. *)
Lemma Table_failing_decode_runs_twice :
  decode_count TagGpos
    (Table_calls parseTable_failing [TagGpos; TagGpos]
       {| d_font := one_table_font; d_decodes := [] |}) = 2%nat.
Proof. vm_compute. reflexivity. Qed.

(** ** The kerning resolver *)

Section ResolverFacts.

Variable parseTable : nat → tableSection → result Table.
Variable findTableBuffer : tableSection → result (list Byte.byte).
Variable parseKernTable : list Byte.byte → result Kerns.

(** C1 (amended): the resolver falls back on every error of the first
    attempt, the invalid-subtable and unsupported-class-definition errors
    included: the outcome is then the outcome of the second attempt.  A
    first attempt that succeeds is the outcome. *)
Theorem KernTable_falls_back_on_every_error (fuel : nat) (kernFirst : bool)
    (d d1 : dir) (r : result Kerns) :
  first_attempt parseTable findTableBuffer parseKernTable fuel kernFirst d = (r, d1) →
  KernTable parseTable findTableBuffer parseKernTable fuel kernFirst d
  = match r with
    | Err _ => second_attempt parseTable findTableBuffer parseKernTable fuel kernFirst d1
    | _ => (r, d1)
    end.
Proof.
  unfold first_attempt, second_attempt, KernTable.
  destruct kernFirst.
  - intros [= <- <-].
    by destruct (kernKerning findTableBuffer parseKernTable d).
  - intros ->. by destruct r.
Qed.

End ResolverFacts.

Lemma KernTable_falls_back_on_every_error_witness :
  KernTable parseTable_failing findTableBuffer_empty parseKernTable_empty 0 false
    {| d_font := truncated_gpos_font; d_decodes := [] |}
  = second_attempt parseTable_failing findTableBuffer_empty parseKernTable_empty 0 false
      {| d_font := truncated_gpos_font; d_decodes := [] |}.
Proof.
  refine (KernTable_falls_back_on_every_error parseTable_failing findTableBuffer_empty
            parseKernTable_empty 0 false
            {| d_font := truncated_gpos_font; d_decodes := [] |}
            {| d_font := truncated_gpos_font; d_decodes := [] |}
            (Err errInvalidGPOSKern) _).
  vm_compute. reflexivity.
Defined.

(** C1 (as stated) fails: the GPOS attempt on [truncated_gpos_font] fails
    with the invalid-subtable error of a truncated subtable, the kern table
    is consulted all the same, and its result is what the resolver
    returns. *)
Lemma KernTable_invalid_gpos_falls_back :
  fst (gposKerning parseTable_failing 0
         {| d_font := truncated_gpos_font; d_decodes := [] |})
    = Err errInvalidGPOSKern ∧
  fst (KernTable parseTable_failing findTableBuffer_empty parseKernTable_empty 0 false
         {| d_font := truncated_gpos_font; d_decodes := [] |})
    = Ok (Kerns_simple ∅).
Proof. split; vm_compute; reflexivity. Qed.

(** ** Loops and slices *)

Lemma for_loop_invariant {St : Type} (P : Z → St → Prop) (body : Z → St → result St)
    (n : nat) :
  ∀ (i : Z) (s r : St),
    P i s →
    (∀ k s0 s1, i ≤ k < i + Z.of_nat n → P k s0 → body k s0 = Ok s1 → P (k + 1) s1) →
    for_loop n i body s = Ok r →
    P (i + Z.of_nat n) r.
Proof.
  induction n as [|n IH]; intros i s r Hs Hstep Hrun.
  - simpl in Hrun. injection Hrun as <-. by replace (i + Z.of_nat 0) with i by lia.
  - simpl in Hrun. bind_ok Hrun.
    replace (i + Z.of_nat (S n)) with ((i + 1) + Z.of_nat n) by lia.
    apply (IH (i + 1) x r); [apply (Hstep i s x); [lia|done..] | | done].
    intros k s0 s1 Hk. apply Hstep. lia.
Qed.

Lemma fill_from_Forall {A : Type} (P : A → Prop) (f : Z → result A) (n : nat) :
  ∀ (i : Z) (l : list A),
    (∀ k x, f k = Ok x → P x) → fill_from n i f = Ok l → Forall P l.
Proof.
  induction n as [|n IH]; intros i l Hf Hrun; simpl in Hrun.
  - injection Hrun as <-. constructor.
  - bind_ok Hrun. bind_ok Hrun. injection Hrun as <-.
    constructor; [by eapply Hf | by eapply IH].
Qed.

(** A read in [buf[k:]] at [o] is the read in [buf] at [k + o]. *)
Lemma u16_at_slice (buf b : list Byte.byte) (k o : Z) :
  slice_from buf k = Ok b → 0 ≤ o → u16_at b o = u16_at buf (k + o).
Proof.
  intros Hb Ho. apply slice_from_Ok in Hb as [Hk ->].
  unfold u16_at, slice_from, len in *. rewrite length_drop.
  replace (o <? 0) with false by (symmetry; apply Z.ltb_ge; lia).
  replace (k + o <? 0) with false by (symmetry; apply Z.ltb_ge; lia).
  simpl.
  destruct (Z.of_nat (length buf - Z.to_nat k) <? o) eqn:E1;
    destruct (Z.of_nat (length buf) <? k + o) eqn:E2;
    try apply Z.ltb_lt in E1; try apply Z.ltb_ge in E1;
    try apply Z.ltb_lt in E2; try apply Z.ltb_ge in E2; try lia; [done|].
  simpl. rewrite drop_drop. by rewrite Z2Nat.inj_add by lia.
Qed.

(** ** Class ids are the stored 16-bit values *)

Lemma class1_classIDs_from_range (targets : list Z) :
  ∀ (start i : Z) (out : gmap Z Z),
    Forall is_uint16 targets →
    map_Forall (fun _ v => is_uint16 v) out →
    map_Forall (fun _ v => is_uint16 v) (class1_classIDs_from start i targets out).
Proof.
  induction targets as [|t rest IH]; intros start i out Ht Hout; simpl; [done|].
  inversion Ht; subst. apply IH; [done|]. by apply map_Forall_insert_2.
Qed.

Lemma classRange_expand_range (fuel : nat) :
  ∀ (i end_ target : Z) (out m : gmap Z Z),
    is_uint16 target →
    map_Forall (fun _ v => is_uint16 v) out →
    classRange_expand fuel i end_ target out = Ok m →
    map_Forall (fun _ v => is_uint16 v) m.
Proof.
  induction fuel as [|fuel IH]; intros i end_ target out m Ht Hout; simpl;
    [discriminate|].
  destruct (i <=? end_); [|by intros [= <-]].
  apply IH; [done|]. by apply map_Forall_insert_2.
Qed.

Lemma class2_classIDs_from_range (fuel : nat) (c : list classRangeRecord) :
  ∀ (out m : gmap Z Z),
    Forall (fun cr => is_uint16 (crr_targetClassID cr)) c →
    map_Forall (fun _ v => is_uint16 v) out →
    class2_classIDs_from fuel c out = Ok m →
    map_Forall (fun _ v => is_uint16 v) m.
Proof.
  induction c as [|cr rest IH]; intros out m Hc Hout; simpl; [by intros [= <-]|].
  inversion Hc; subst. intros H. bind_ok H.
  eapply IH; [done| |done]. by eapply classRange_expand_range.
Qed.

Lemma fetchClassLookup_classIDs_range (fuel : nat) (buf : list Byte.byte)
    (offset : Z) (c : class) (m : gmap Z Z) :
  fetchClassLookup buf offset = Ok c → classIDs fuel c = Ok m →
  map_Forall (fun _ v => is_uint16 v) m.
Proof.
  unfold fetchClassLookup. destruct (len buf <? offset + 2); [discriminate|].
  intros H. bind_ok H. bind_ok H.
  destruct (x0 =? 1); [|destruct (x0 =? 2); [|discriminate]].
  - bind_ok H. injection H as <-. simpl. intros [= <-].
    unfold fetchClassLookupFormat1 in Hx1.
    destruct (len x <? 6); [discriminate|].
    bind_ok Hx1. bind_ok Hx1.
    destruct (len x <? 6 + x3 * 2); [discriminate|].
    bind_ok Hx1. injection Hx1 as <-.
    unfold class1_classIDs. simpl.
    apply class1_classIDs_from_range; [|apply map_Forall_empty].
    eapply fill_from_Forall; [|exact Hx4].
    intros k v. apply u16_at_range.
  - bind_ok H. injection H as <-. simpl. unfold class2_classIDs.
    apply class2_classIDs_from_range; [|apply map_Forall_empty].
    unfold fetchClassLookupFormat2 in Hx1.
    destruct (len x <? 4); [discriminate|].
    bind_ok Hx1.
    destruct (len x <? 4 + x2 * 6); [discriminate|].
    eapply fill_from_Forall; [|exact Hx1].
    intros k cr Hcr. simpl in Hcr.
    bind_ok Hcr. bind_ok Hcr. bind_ok Hcr. injection Hcr as <-. simpl.
    by eapply u16_at_range.
Qed.

Lemma map_get_range (m : gmap Z Z) (k : Z) :
  map_Forall (fun _ v => is_uint16 v) m → is_uint16 (map_get m k).
Proof.
  intros Hm. unfold map_get. destruct (m !! k) as [v|] eqn:Hk; simpl.
  - by apply (Hm k v).
  - unfold is_uint16. lia.
Qed.

(** ** The class matrix *)

Lemma store_Ok {A : Type} (l l' : list A) (i : Z) (x : A) :
  store l i x = Ok l' → 0 ≤ i < len l ∧ l' = <[Z.to_nat i := x]> l.
Proof.
  unfold store. destruct (i <? 0) eqn:E1; [discriminate|].
  destruct (len l <=? i) eqn:E2; [discriminate|]. simpl.
  apply Z.ltb_ge in E1. apply Z.leb_gt in E2. by intros [= <-].
Qed.

Lemma fetchPairPosClass_row_filled (b : list Byte.byte) (size : nat) (num2 i : Z)
    (ks ks' : list Z) :
  0 ≤ i → 0 ≤ num2 →
  kerns_filled b size (i * num2) ks →
  fetchPairPosClass_row b num2 i ks = Ok ks' →
  kerns_filled b size ((i + 1) * num2) ks'.
Proof.
  intros Hi Hn Hks Hrun. unfold fetchPairPosClass_row in Hrun.
  apply (for_loop_invariant (fun j l => kerns_filled b size (j + i * num2) l)) in Hrun.
  - replace ((i + 1) * num2) with (0 + Z.of_nat (Z.to_nat num2) + i * num2) by lia.
    exact Hrun.
  - exact Hks.
  - intros j l l' Hj [Hlen Hcells] Hbody. simpl in Hbody.
    bind_ok Hbody. apply store_Ok in Hbody as [Hidx ->].
    split; [by rewrite length_insert|].
    intros idx Hidx'.
    destruct (decide (idx = j + i * num2)) as [->|Hne].
    + exists x. split; [done|]. apply list_lookup_insert_eq. unfold len in Hidx. lia.
    + destruct (Hcells idx) as (v & Hv & Hl); [lia|].
      exists v. split; [done|]. rewrite list_lookup_insert_ne; [done|]. nia.
Qed.

Lemma fetchPairPosClass_kerns_filled (b : list Byte.byte) (num1 num2 : Z) (ks : list Z) :
  0 ≤ num1 → 0 ≤ num2 →
  for_loop (Z.to_nat num1) 0 (fetchPairPosClass_row b num2)
    (replicate (Z.to_nat (num1 * num2)) 0) = Ok ks →
  kerns_filled b (Z.to_nat (num1 * num2)) (num1 * num2) ks.
Proof.
  intros H1 H2 Hrun.
  apply (for_loop_invariant
           (fun i l => kerns_filled b (Z.to_nat (num1 * num2)) (i * num2) l)) in Hrun.
  - by replace (num1 * num2) with ((0 + Z.of_nat (Z.to_nat num1)) * num2) at 2 by lia.
  - split; [apply length_replicate|]. intros idx Hidx. lia.
  - intros i l l' Hi Hl Hrow.
    apply (fetchPairPosClass_row_filled b _ num2 i l); [lia | lia | done | done].
Qed.

Lemma coverage_foldl (cov : list GlyphIndex) :
  ∀ (s : gset Z) (g : Z),
    g ∈ foldl (fun s c => {[c]} ∪ s) s cov ↔ g ∈ s ∨ g ∈ cov.
Proof.
  induction cov as [|c rest IH]; intros s g; simpl.
  - rewrite elem_of_nil. tauto.
  - rewrite IH, elem_of_cons, elem_of_union, elem_of_singleton. tauto.
Qed.

(** What a successful [parsePairPosFormat2] returns: the zero value behind
    the value-format gate, or a source built from the header counts, the
    matrix and the two class definitions. *)
Lemma parsePairPosFormat2_Ok (fuel : nat) (buf : list Byte.byte)
    (cov : list GlyphIndex) (ck : classKerns) :
  parsePairPosFormat2 fuel buf cov = Ok ck →
  (∃ vf1 vf2, u16_at buf 4 = Ok vf1 ∧ u16_at buf 6 = Ok vf2 ∧
              (vf1 ≠ 4 ∨ vf2 ≠ 0) ∧ ck = classKerns_zero) ∨
  (∃ num1 num2,
     u16_at buf 4 = Ok 4 ∧ u16_at buf 6 = Ok 0 ∧
     u16_at buf 12 = Ok num1 ∧ u16_at buf 14 = Ok num2 ∧
     numClass2 ck = num2 ∧
     len (kerns ck) = num1 * num2 ∧
     (∀ i j, 0 ≤ i < num1 → 0 ≤ j < num2 →
        ∃ v, matrix_entry buf num2 i j = Ok v ∧
             kerns ck !! Z.to_nat (j + i * num2) = Some v) ∧
     map_Forall (fun _ v => is_uint16 v) (ck_class1 ck) ∧
     map_Forall (fun _ v => is_uint16 v) (ck_class2 ck) ∧
     (∀ g, g ∈ coverage ck ↔ g ∈ cov)).
Proof.
  unfold parsePairPosFormat2. destruct (len buf <? 16); [discriminate|].
  intros H. bind_ok H. bind_ok H.
  destruct (Z.eqb_spec x 4) as [E1|E1]; destruct (Z.eqb_spec x0 0) as [E2|E2];
    simpl in H;
    try (injection H as <-; left; exists x, x0; by auto).
  subst x x0. right.
  bind_named H cdef1Offset Ho1. bind_named H cdef2Offset Ho2.
  bind_named H num1 Hnum1. bind_named H num2 Hnum2.
  bind_named H cdef1 Hcdef1. bind_named H cdef2 Hcdef2. bind_named H b Hb.
  pose proof (u16_at_range _ _ _ Hnum1) as Hn1.
  pose proof (u16_at_range _ _ _ Hnum2) as Hn2.
  unfold fetchPairPosClass in H.
  destruct (len b <? num1 * num2 * 2); [discriminate|].
  bind_named H ks Hks. bind_named H c1 Hc1. bind_named H c2 Hc2.
  injection H as <-. simpl.
  apply fetchPairPosClass_kerns_filled in Hks as [Hlen Hcells]; [|lia..].
  exists num1, num2. split_and!; try done.
  - unfold len. rewrite Hlen. nia.
  - intros i j Hi Hj. destruct (Hcells (j + i * num2)) as (v & Hv & Hl); [nia|].
    exists (int16 v). split; [|done].
    unfold matrix_entry.
    rewrite <- (u16_at_slice buf b 16 ((i * num2 + j) * 2) Hb) by nia.
    replace ((i * num2 + j) * 2) with ((j + i * num2) * 2) by lia.
    by rewrite Hv.
  - exact (fetchClassLookup_classIDs_range fuel buf cdef1Offset cdef1 c1 Hcdef1 Hc1).
  - exact (fetchClassLookup_classIDs_range fuel buf cdef2Offset cdef2 c2 Hcdef2 Hc2).
  - intros g. rewrite coverage_foldl, elem_of_empty. tauto.
Qed.

(** ** Class-based sources *)

(** X30: what the format-2 parser does guarantee about class ids and the
    matrix.  With the supported value formats, the class ids of a parsed
    class-based source are 16-bit values (0..65535), the source keeps
    class2Count as its row stride and a matrix of exactly class1Count *
    class2Count entries, and the index computed by [KernPair] lies within
    the matrix for every glyph pair whose two class ids are below the
    declared counts. *)
Theorem class_ids_stored_unchecked (fuel : nat) (buf : list Byte.byte)
    (cov : list GlyphIndex) (ck : classKerns) (num1 num2 : Z) :
  u16_at buf 4 = Ok 4 → u16_at buf 6 = Ok 0 →
  u16_at buf 12 = Ok num1 → u16_at buf 14 = Ok num2 →
  parsePairPosFormat2 fuel buf cov = Ok ck →
  (∀ g c, ck_class1 ck !! g = Some c → 0 ≤ c < 65536) ∧
  (∀ g c, ck_class2 ck !! g = Some c → 0 ≤ c < 65536) ∧
  numClass2 ck = num2 ∧
  len (kerns ck) = num1 * num2 ∧
  ∀ left right,
    map_get (ck_class1 ck) left < num1 →
    map_get (ck_class2 ck) right < num2 →
    0 ≤ map_get (ck_class2 ck) right + map_get (ck_class1 ck) left * numClass2 ck
      < len (kerns ck).
Proof.
  intros Hvf1 Hvf2 Hnum1 Hnum2 Hparse.
  destruct (parsePairPosFormat2_Ok fuel buf cov ck Hparse)
    as [(vf1 & vf2 & Hv1 & Hv2 & Hgate & _) |
        (n1 & n2 & _ & _ & Hn1 & Hn2 & Hstride & Hlen & _ & Hc1 & Hc2 & _)].
  { rewrite Hvf1 in Hv1. rewrite Hvf2 in Hv2.
    injection Hv1 as <-. injection Hv2 as <-. lia. }
  rewrite Hnum1 in Hn1. rewrite Hnum2 in Hn2.
  injection Hn1 as <-. injection Hn2 as <-.
  split_and!; [exact Hc1 | exact Hc2 | done | done |].
  intros left right Hl Hr.
  pose proof (map_get_range _ left Hc1) as Hl'.
    pose proof (map_get_range _ right Hc2) as Hr'.
    unfold is_uint16 in *. rewrite Hstride, Hlen. nia.
Qed.

Lemma class_ids_stored_unchecked_witness :
  ∃ ck, parsePairPosFormat2 0 class_pair_subtable [5; 6] = Ok ck ∧
        numClass2 ck = 1 ∧ len (kerns ck) = 2 * 1.
Proof.
  eexists. split; [vm_compute; reflexivity|].
  refine (let H := class_ids_stored_unchecked 0 class_pair_subtable [5; 6] _ 2 1
                     _ _ _ _ _ in
          conj (proj1 (proj2 (proj2 H))) (proj1 (proj2 (proj2 (proj2 H)))));
    vm_compute; reflexivity.
Defined.

(** C4 (code as written): the class ids are not compared with the
    declared counts.  [wide_class1_subtable] declares class1Count = 1 and
    is parsed with success, yet its first class definition gives glyph 5
    the class 7; the index computed for the pair (5, 9) is 7 in a matrix of
    one entry, and [KernPair] panics on it. *)
Theorem class_id_above_class1Count :
  ∃ ck, parsePairPosFormat2 0 wide_class1_subtable [5] = Ok ck ∧
        u16_at wide_class1_subtable 12 = Ok 1 ∧
        ck_class1 ck !! 5 = Some 7 ∧
        len (kerns ck) = 1 ∧
        map_get (ck_class2 ck) 9 + map_get (ck_class1 ck) 5 * numClass2 ck = 7 ∧
        bool_decide (5 ∈ coverage ck) = true ∧
        classKerns_KernPair ck 5 9 = Panic.
Proof.
  eexists. split; [vm_compute; reflexivity|].
  repeat split; vm_compute; reflexivity.
Qed.

(** X29: for a parsed class-based source, [KernPair] reports no match
    when the left glyph is not in the coverage of the source; when it is,
    and the class ids of the two glyphs (0 for a glyph absent from the
    class map) are below class1Count and class2Count, the glyph is one of
    the decoded coverage and [KernPair] reports a match with the matrix
    entry of row class1[left] and column class2[right]. *)
Theorem KernPair_class_matrix (fuel : nat) (buf : list Byte.byte)
    (cov : list GlyphIndex) (ck : classKerns) (num1 num2 : Z)
    (left right : GlyphIndex) :
  parsePairPosFormat2 fuel buf cov = Ok ck →
  u16_at buf 12 = Ok num1 → u16_at buf 14 = Ok num2 →
  (left ∉ coverage ck → classKerns_KernPair ck left right = Ok (0, false)) ∧
  (left ∈ coverage ck →
   map_get (ck_class1 ck) left < num1 →
   map_get (ck_class2 ck) right < num2 →
   left ∈ cov ∧
   ∃ v, matrix_entry buf num2 (map_get (ck_class1 ck) left)
          (map_get (ck_class2 ck) right) = Ok v ∧
        classKerns_KernPair ck left right = Ok (v, true)).
Proof.
  intros Hparse Hnum1 Hnum2. split.
  { intros Hout. unfold classKerns_KernPair.
    by destruct (decide (left ∈ coverage ck)). }
  intros Hin Hl Hr.
  destruct (parsePairPosFormat2_Ok fuel buf cov ck Hparse)
    as [(vf1 & vf2 & _ & _ & _ & ->) |
        (n1 & n2 & _ & _ & Hn1 & Hn2 & Hstride & Hlen & Hcells & Hc1 & Hc2 & Hcov)].
  { simpl in Hin. by apply elem_of_empty in Hin. }
  rewrite Hnum1 in Hn1. rewrite Hnum2 in Hn2.
  injection Hn1 as <-. injection Hn2 as <-.
  split; [by apply Hcov|].
  pose proof (map_get_range _ left Hc1) as Hl'.
  pose proof (map_get_range _ right Hc2) as Hr'.
  unfold is_uint16 in *.
  destruct (Hcells (map_get (ck_class1 ck) left) (map_get (ck_class2 ck) right))
    as (v & Hv & Hcell); [lia | lia |].
  exists v. split; [done|].
  unfold classKerns_KernPair. destruct (decide (left ∈ coverage ck)); [|done].
  rewrite Hstride. unfold index.
  replace (_ <? 0) with false by (symmetry; apply Z.ltb_ge; nia).
  by rewrite Hcell.
Qed.

Lemma KernPair_class_matrix_witness :
  ∃ ck, parsePairPosFormat2 0 class_pair_subtable [5; 6] = Ok ck ∧
        (7 ∉ coverage ck → classKerns_KernPair ck 7 9 = Ok (0, false)) ∧
        (6 ∈ [5; 6] ∧
         ∃ v, matrix_entry class_pair_subtable 1 (map_get (ck_class1 ck) 6)
                (map_get (ck_class2 ck) 9) = Ok v ∧
              classKerns_KernPair ck 6 9 = Ok (v, true)).
Proof.
  eexists. split; [vm_compute; reflexivity|]. split.
  - refine (proj1 (KernPair_class_matrix 0 class_pair_subtable [5; 6] _ 2 1 7 9 _ _ _));
      vm_compute; reflexivity.
  - refine (proj2 (KernPair_class_matrix 0 class_pair_subtable [5; 6] _ 2 1 6 9 _ _ _)
              _ _ _); vm_compute; reflexivity.
Defined.

(** C6 (code as written): [KernPair] reads the matrix without a bound
    check.  [wide_class2_subtable] is parsed with success and glyph 5 is in
    its coverage, but the query (5, 9) reports neither a match nor no
    match: glyph 9 has class 3 with class2Count = 1, and the read of the
    matrix at index 3 panics. *)
Theorem KernPair_wide_class_panics :
  ∃ ck, parsePairPosFormat2 0 wide_class2_subtable [5] = Ok ck ∧
        bool_decide (5 ∈ coverage ck) = true ∧
        ck_class2 ck !! 9 = Some 3 ∧
        u16_at wide_class2_subtable 14 = Ok 1 ∧
        classKerns_KernPair ck 5 9 = Panic.
Proof.
  eexists. split; [vm_compute; reflexivity|].
  repeat split; vm_compute; reflexivity.
Qed.

(** ** Where the reads stay inside the buffer

    The coverage decoder, the class definition decoder and the format-2
    parser check every count before the reads it sizes: none of them
    panics, on any buffer.  The reads of [fetchPairPosGlyph] are the only
    ones that can leave the buffer. *)

Lemma be_Uint16_total (b : list Byte.byte) :
  2 ≤ len b → ∃ v, be_Uint16 b = Ok v.
Proof.
  destruct b as [|b0 [|b1 rest]]; unfold len; simpl; intros Hlen; try lia.
  by eexists.
Qed.

Lemma u16_at_total (b : list Byte.byte) (off : Z) :
  0 ≤ off → off + 2 ≤ len b → ∃ v, u16_at b off = Ok v.
Proof.
  intros H0 Hlen. unfold u16_at, slice_from.
  replace (off <? 0) with false by (symmetry; apply Z.ltb_ge; lia).
  replace (len b <? off) with false by (symmetry; apply Z.ltb_ge; lia).
  simpl. apply be_Uint16_total. unfold len in *. rewrite length_drop. lia.
Qed.

Lemma slice_from_total (b : list Byte.byte) (off : Z) :
  0 ≤ off → off ≤ len b → slice_from b off = Ok (drop (Z.to_nat off) b).
Proof.
  intros H0 Hlen. unfold slice_from.
  replace (off <? 0) with false by (symmetry; apply Z.ltb_ge; lia).
  by replace (len b <? off) with false by (symmetry; apply Z.ltb_ge; lia).
Qed.

Lemma fill_from_total {A : Type} (f : Z → result A) (n : nat) :
  ∀ i, (∀ k, i ≤ k < i + Z.of_nat n → ∃ x, f k = Ok x) →
       ∃ l, fill_from n i f = Ok l.
Proof.
  induction n as [|n IH]; intros i Hf; simpl; [by eexists|].
  destruct (Hf i) as [x ->]; [lia|]. simpl.
  destruct (IH (i + 1)) as [l ->]; [|by eexists].
  intros k Hk. apply Hf. lia.
Qed.

Lemma fill_total {A : Type} (f : Z → result A) (num : Z) :
  (∀ k, 0 ≤ k < num → ∃ x, f k = Ok x) → ∃ l, fill num f = Ok l.
Proof.
  intros Hf. apply fill_from_total. intros k Hk. apply Hf. lia.
Qed.

Lemma fetchCoverageList_no_panic (b : list Byte.byte) :
  fetchCoverageList b ≠ Panic.
Proof.
  unfold fetchCoverageList.
  destruct (len b <? 2) eqn:Hlen; [discriminate|]. apply Z.ltb_ge in Hlen.
  destruct (be_Uint16_total b Hlen) as [num Hnum]. rewrite Hnum. simpl.
  pose proof (be_Uint16_range _ _ Hnum) as Hrange.
  destruct (len b <? 2 + num * 2) eqn:Hfit; [discriminate|]. apply Z.ltb_ge in Hfit.
  destruct (fill_total (fun i => u16_at b (2 + 2 * i)) num) as [l ->]; [|discriminate].
  intros k Hk. apply u16_at_total; lia.
Qed.

Lemma coverageRange_expand_no_panic (fuel : nat) :
  ∀ i end_ out, coverageRange_expand fuel i end_ out ≠ Panic.
Proof.
  induction fuel as [|fuel IH]; intros i end_ out; simpl; [discriminate|].
  destruct (i <=? end_); [apply IH | discriminate].
Qed.

Lemma coverageRanges_list_from_no_panic (fuel : nat) (crs : list coverageRange) :
  ∀ out, coverageRanges_list_from fuel crs out ≠ Panic.
Proof.
  induction crs as [|cr rest IH]; intros out; simpl; [discriminate|].
  pose proof (coverageRange_expand_no_panic fuel (cr_start cr) (cr_end cr) out) as Hc.
  destruct (coverageRange_expand fuel (cr_start cr) (cr_end cr) out); simpl;
    try discriminate; [apply IH | done].
Qed.

Lemma fetchCoverageRange_no_panic (fuel : nat) (b : list Byte.byte) :
  fetchCoverageRange fuel b ≠ Panic.
Proof.
  unfold fetchCoverageRange.
  destruct (len b <? 2) eqn:Hlen; [discriminate|]. apply Z.ltb_ge in Hlen.
  destruct (be_Uint16_total b Hlen) as [num Hnum]. rewrite Hnum. simpl.
  pose proof (be_Uint16_range _ _ Hnum) as Hrange.
  destruct (len b <? 2 + num * 6) eqn:Hfit; [discriminate|]. apply Z.ltb_ge in Hfit.
  match goal with
  | |- context [fill num ?f] => destruct (fill_total f num) as [l ->]
  end.
  - intros k Hk.
    destruct (u16_at_total b (2 + k * 6)) as [s ->]; [lia..|].
    destruct (u16_at_total b (2 + k * 6 + 2)) as [e ->]; [lia..|].
    destruct (u16_at_total b (2 + k * 6 + 4)) as [c ->]; [lia..|].
    by eexists.
  - simpl. apply coverageRanges_list_from_no_panic.
Qed.

(** The coverage decoder never reads outside its buffer. *)
Lemma fetchCoverage_no_panic (fuel : nat) (buf : list Byte.byte) (offset : Z) :
  0 ≤ offset → fetchCoverage fuel buf offset ≠ Panic.
Proof.
  intros H0. unfold fetchCoverage.
  destruct (len buf <? offset + 2) eqn:Hlen; [discriminate|]. apply Z.ltb_ge in Hlen.
  rewrite slice_from_total by lia. simpl.
  set (b := drop (Z.to_nat offset) buf).
  assert (2 ≤ len b) as Hb by (unfold b, len in *; rewrite length_drop; lia).
  destruct (be_Uint16_total b Hb) as [format ->]. simpl.
  destruct (format =? 1).
  - rewrite slice_from_total by lia. simpl. apply fetchCoverageList_no_panic.
  - destruct (format =? 2); [|discriminate].
    rewrite slice_from_total by lia. simpl. apply fetchCoverageRange_no_panic.
Qed.

Lemma fetchClassLookupFormat1_no_panic (b : list Byte.byte) :
  fetchClassLookupFormat1 b ≠ Panic.
Proof.
  unfold fetchClassLookupFormat1.
  destruct (len b <? 6) eqn:Hlen; [discriminate|]. apply Z.ltb_ge in Hlen.
  destruct (u16_at_total b 2) as [start ->]; [lia..|].
  destruct (u16_at_total b 4) as [num Hnum]; [lia..|]. rewrite Hnum. simpl.
  pose proof (u16_at_range _ _ _ Hnum) as Hrange.
  destruct (len b <? 6 + num * 2) eqn:Hfit; [discriminate|]. apply Z.ltb_ge in Hfit.
  destruct (fill_total (fun i => u16_at b (6 + i * 2)) num) as [l ->]; [|discriminate].
  intros k Hk. apply u16_at_total; lia.
Qed.

Lemma fetchClassLookupFormat2_no_panic (b : list Byte.byte) :
  fetchClassLookupFormat2 b ≠ Panic.
Proof.
  unfold fetchClassLookupFormat2.
  destruct (len b <? 4) eqn:Hlen; [discriminate|]. apply Z.ltb_ge in Hlen.
  destruct (u16_at_total b 2) as [num Hnum]; [lia..|]. rewrite Hnum. simpl.
  pose proof (u16_at_range _ _ _ Hnum) as Hrange.
  destruct (len b <? 4 + num * 6) eqn:Hfit; [discriminate|]. apply Z.ltb_ge in Hfit.
  match goal with
  | |- context [fill num ?f] => destruct (fill_total f num) as [l ->]
  end; [|discriminate].
  intros k Hk.
  destruct (u16_at_total b (4 + k * 6)) as [s ->]; [lia..|].
  destruct (u16_at_total b (4 + k * 6 + 2)) as [e ->]; [lia..|].
  destruct (u16_at_total b (4 + k * 6 + 4)) as [c ->]; [lia..|].
  by eexists.
Qed.

(** The class definition decoder never reads outside its buffer. *)
Lemma fetchClassLookup_no_panic (buf : list Byte.byte) (offset : Z) :
  0 ≤ offset → fetchClassLookup buf offset ≠ Panic.
Proof.
  intros H0. unfold fetchClassLookup.
  destruct (len buf <? offset + 2) eqn:Hlen; [discriminate|]. apply Z.ltb_ge in Hlen.
  rewrite slice_from_total by lia. simpl.
  set (b := drop (Z.to_nat offset) buf).
  assert (2 ≤ len b) as Hb by (unfold b, len in *; rewrite length_drop; lia).
  destruct (be_Uint16_total b Hb) as [format ->]. simpl.
  destruct (format =? 1).
  - pose proof (fetchClassLookupFormat1_no_panic b) as Hc.
    destruct (fetchClassLookupFormat1 b); simpl; done.
  - destruct (format =? 2); [|discriminate].
    pose proof (fetchClassLookupFormat2_no_panic b) as Hc.
    destruct (fetchClassLookupFormat2 b); simpl; done.
Qed.

Lemma for_loop_total {St : Type} (P : Z → St → Prop) (body : Z → St → result St)
    (n : nat) :
  ∀ (i : Z) (s : St),
    P i s →
    (∀ k s0, i ≤ k < i + Z.of_nat n → P k s0 → ∃ s1, body k s0 = Ok s1 ∧ P (k + 1) s1) →
    ∃ r, for_loop n i body s = Ok r ∧ P (i + Z.of_nat n) r.
Proof.
  induction n as [|n IH]; intros i s Hs Hstep; simpl.
  - exists s. split; [done|]. by replace (i + Z.of_nat 0) with i by lia.
  - destruct (Hstep i s) as (s1 & -> & Hs1); [lia | done |]. simpl.
    replace (i + Z.of_nat (S n)) with ((i + 1) + Z.of_nat n) by lia.
    apply IH; [done|]. intros k s0 Hk. apply Hstep. lia.
Qed.

Lemma fetchPairPosClass_row_total (b : list Byte.byte) (num1 num2 i : Z) (ks : list Z) :
  0 ≤ i < num1 → 0 ≤ num2 → num1 * num2 * 2 ≤ len b →
  len ks = num1 * num2 →
  ∃ ks', fetchPairPosClass_row b num2 i ks = Ok ks' ∧ len ks' = num1 * num2.
Proof.
  intros Hi Hn Hb Hks. unfold fetchPairPosClass_row.
  destruct (for_loop_total (fun _ l => len l = num1 * num2)
              (fun j kerns =>
                 let index := j + i * num2 in
                 v ← u16_at b (index * 2); store kerns index (int16 v))
              (Z.to_nat num2) 0 ks Hks) as (ks' & Hrun & Hlen); [|by exists ks'].
  intros j l Hj Hl. simpl.
  destruct (u16_at_total b ((j + i * num2) * 2)) as [v ->]; [nia..|]. simpl.
  unfold store.
  replace (j + i * num2 <? 0) with false by (symmetry; apply Z.ltb_ge; nia).
  replace (len l <=? j + i * num2) with false by (symmetry; apply Z.leb_gt; nia).
  simpl. eexists. split; [done|]. unfold len in *. by rewrite length_insert.
Qed.

Lemma classIDs_no_panic (fuel : nat) (c : class) : classIDs fuel c ≠ Panic.
Proof.
  destruct c as [c|c]; simpl; [discriminate|]. unfold class2_classIDs.
  generalize (∅ : gmap Z Z). induction c as [|cr rest IH]; intros out; simpl;
    [discriminate|].
  assert (∀ fuel i end_ target m, classRange_expand fuel i end_ target m ≠ Panic)
    as Hexp.
  { clear. induction fuel as [|fuel IH]; intros i end_ target m; simpl;
      [discriminate|]. destruct (i <=? end_); [apply IH | discriminate]. }
  specialize (Hexp fuel (crr_start cr) (crr_end cr) (crr_targetClassID cr) out).
  destruct (classRange_expand fuel (crr_start cr) (crr_end cr)
              (crr_targetClassID cr) out); simpl; first [done | apply IH].
Qed.

Lemma fetchPairPosClass_no_panic (fuel : nat) (b : list Byte.byte)
    (cov : list GlyphIndex) (num1 num2 : Z) (cdef1 cdef2 : class) :
  0 ≤ num1 → 0 ≤ num2 →
  fetchPairPosClass fuel b cov num1 num2 cdef1 cdef2 ≠ Panic.
Proof.
  intros H1 H2. unfold fetchPairPosClass.
  destruct (len b <? num1 * num2 * 2) eqn:Hlen; [discriminate|].
  apply Z.ltb_ge in Hlen.
  destruct (for_loop_total (fun _ l => len l = num1 * num2)
              (fetchPairPosClass_row b num2) (Z.to_nat num1) 0
              (replicate (Z.to_nat (num1 * num2)) 0)) as (ks & -> & _).
  - unfold len. rewrite length_replicate. nia.
  - intros i l Hi Hl. apply (fetchPairPosClass_row_total b num1 num2 i l); lia.
  - simpl.
    pose proof (classIDs_no_panic fuel cdef1) as Hc1.
    pose proof (classIDs_no_panic fuel cdef2) as Hc2.
    destruct (classIDs fuel cdef1); simpl; try done.
    destruct (classIDs fuel cdef2); simpl; done.
Qed.

(** The format-2 parser never reads outside its buffer. *)
Lemma parsePairPosFormat2_no_panic (fuel : nat) (buf : list Byte.byte)
    (cov : list GlyphIndex) :
  parsePairPosFormat2 fuel buf cov ≠ Panic.
Proof.
  unfold parsePairPosFormat2.
  destruct (len buf <? 16) eqn:Hlen; [discriminate|]. apply Z.ltb_ge in Hlen.
  destruct (u16_at_total buf 4) as [vf1 ->]; [lia..|].
  destruct (u16_at_total buf 6) as [vf2 ->]; [lia..|]. simpl.
  destruct (negb (vf1 =? 4) || negb (vf2 =? 0)); [discriminate|].
  destruct (u16_at_total buf 8) as [o1 Ho1]; [lia..|].
  destruct (u16_at_total buf 10) as [o2 Ho2]; [lia..|].
  destruct (u16_at_total buf 12) as [n1 Hn1]; [lia..|].
  destruct (u16_at_total buf 14) as [n2 Hn2]; [lia..|].
  rewrite Ho1, Ho2, Hn1, Hn2. simpl.
  apply u16_at_range in Ho1, Ho2, Hn1, Hn2.
  pose proof (fetchClassLookup_no_panic buf o1 (proj1 Ho1)) as Hc1.
  destruct (fetchClassLookup buf o1) as [cdef1| | |]; simpl; try done.
  pose proof (fetchClassLookup_no_panic buf o2 (proj1 Ho2)) as Hc2.
  destruct (fetchClassLookup buf o2) as [cdef2| | |]; simpl; try done.
  rewrite slice_from_total by lia. simpl.
  apply fetchPairPosClass_no_panic; lia.
Qed.

(** ** Worked examples *)

(** Coverage format 2 with the ranges 10..12 and 20..20 (stored start
    indices 0 and 3) decodes to the sequence 10, 11, 12, 20. *)
Example coverage_ranges_10_12_20 :
  fetchCoverage 4
    [x00; x02; x00; x02; x00; x0a; x00; x0c; x00; x00; x00; x14; x00; x14; x00; x03] 0
  = Ok [10; 11; 12; 20].
Proof. vm_compute. reflexivity. Qed.

(** ClassDef format 1 with startGlyph 100 and the class ids 0, 1, 1, 2:
    glyph 101 has class 1, glyph 103 class 2, the absent glyph 104
    class 0. *)
Example classdef_format1_from_100 :
  (c ← fetchClassLookup
         [x00; x01; x00; x64; x00; x04; x00; x00; x00; x01; x00; x01; x00; x02] 0;
   m ← classIDs 0 c;
   Ok (map_get m 100, map_get m 101, map_get m 102, map_get m 103, map_get m 104))
  = Ok (0, 1, 1, 2, 0).
Proof. vm_compute. reflexivity. Qed.

(** The class-based source of [class_pair_subtable]: coverage {5, 6},
    class1 = {5: 0, 6: 1}, class2 = {9: 0}, matrix [[-10], [-20]]. *)
Example class_pair_lookups :
  (ck ← parsePairPosFormat2 0 class_pair_subtable [5; 6];
   r59 ← classKerns_KernPair ck 5 9;
   r69 ← classKerns_KernPair ck 6 9;
   r79 ← classKerns_KernPair ck 7 9;
   Ok (r59, r69, r79))
  = Ok ((-10, true), (-20, true), (0, false)).
Proof. vm_compute. reflexivity. Qed.

(** A format-1 subtable with coverage {5} and one PairSet holding the
    record (9, -30): the simple source maps the packed pair (5, 9) to -30
    and has no entry for (5, 10). *)
Example simple_pair_5_9 :
  (cov ← fetchCoverage 0
           [x00; x01; x00; x0c; x00; x04; x00; x00; x00; x01; x00; x12;
            x00; x01; x00; x01; x00; x05; x00; x01; x00; x09; xff; xe2] 12;
   m ← parsePairPosFormat1
         [x00; x01; x00; x0c; x00; x04; x00; x00; x00; x01; x00; x12;
          x00; x01; x00; x01; x00; x05; x00; x01; x00; x09; xff; xe2] cov ∅;
   Ok (m !! Z.lor (Z.shiftl 5 16) 9, m !! Z.lor (Z.shiftl 5 16) 10))
  = Ok (Some (-30), None).
Proof. vm_compute. reflexivity. Qed.

(** * Further properties of the decoders *)

(** ** Reads stay inside the buffer *)

(** X1: the coverage decoder never reads outside its buffer: for every
    buffer and every non-negative offset it ends with a coverage, with an
    error, or (range format) out of fuel, never with a panic. *)
Theorem coverage_decoder_in_bounds (fuel : nat) (buf : list Byte.byte) (offset : Z) :
  0 ≤ offset → fetchCoverage fuel buf offset ≠ Panic.
Proof. apply fetchCoverage_no_panic. Qed.

Lemma coverage_decoder_in_bounds_witness :
  fetchCoverage 0 [x00; x02; x00; x09] 1 ≠ Panic.
Proof. apply (coverage_decoder_in_bounds 0 [x00; x02; x00; x09] 1). lia. Defined.

(** X2: the class definition decoder never reads outside its buffer, for
    every buffer and every non-negative offset. *)
Theorem classdef_decoder_in_bounds (buf : list Byte.byte) (offset : Z) :
  0 ≤ offset → fetchClassLookup buf offset ≠ Panic.
Proof. apply fetchClassLookup_no_panic. Qed.

Lemma classdef_decoder_in_bounds_witness :
  fetchClassLookup [x00; x00; x01; x00; x05; xff; xff] 1 ≠ Panic.
Proof.
  apply (classdef_decoder_in_bounds [x00; x00; x01; x00; x05; xff; xff] 1). lia.
Defined.

(** X3: the format-2 parser never reads outside its buffer, whatever the
    buffer and the coverage: the offsets of the two class definitions and
    the size of the matrix are checked before they are used. *)
Theorem format2_parser_in_bounds (fuel : nat) (buf : list Byte.byte)
    (cov : list GlyphIndex) :
  parsePairPosFormat2 fuel buf cov ≠ Panic.
Proof. apply parsePairPosFormat2_no_panic. Qed.

(** ** What the coverage decoder returns *)

Lemma be_Uint16_as_u16_at (b : list Byte.byte) : be_Uint16 b = u16_at b 0.
Proof. unfold u16_at. by rewrite slice_from_0. Qed.

Lemma fill_from_lookup {A : Type} (f : Z → result A) (n : nat) :
  ∀ (i : Z) (l : list A),
    fill_from n i f = Ok l →
    length l = n ∧
    ∀ k, (k < n)%nat → ∃ x, f (i + Z.of_nat k) = Ok x ∧ l !! k = Some x.
Proof.
  induction n as [|n IH]; intros i l Hrun; simpl in Hrun.
  - injection Hrun as <-. split; [done|]. intros k Hk. lia.
  - bind_named Hrun x Hx. bind_named Hrun xs Hxs. injection Hrun as <-.
    destruct (IH _ _ Hxs) as [Hlen Hcells]. split; [simpl; by rewrite Hlen|].
    intros [|k] Hk.
    + exists x. by replace (i + Z.of_nat 0) with i by lia.
    + destruct (Hcells k) as (y & Hy & Hl); [lia|]. exists y.
      by replace (i + Z.of_nat (S k)) with (i + 1 + Z.of_nat k) by lia.
Qed.

(** X4: a coverage table of format 1 decodes to exactly glyphCount glyphs,
    and the glyph of coverage index i is the 16-bit value stored at byte
    offset + 4 + 2*i: the list is taken verbatim, in stored order. *)
Theorem coverage_list_verbatim (fuel : nat) (buf : list Byte.byte) (offset : Z)
    (cov : list GlyphIndex) :
  u16_at buf offset = Ok 1 →
  fetchCoverage fuel buf offset = Ok cov →
  ∃ num, u16_at buf (offset + 2) = Ok num ∧
         len cov = num ∧
         ∀ i, 0 ≤ i < num →
              ∃ g, u16_at buf (offset + 4 + 2 * i) = Ok g ∧
                   cov !! Z.to_nat i = Some g.
Proof.
  intros Hfmt Hrun. unfold fetchCoverage in Hrun.
  destruct (len buf <? offset + 2); [discriminate|].
  unfold u16_at in Hfmt. bind_named Hfmt b Hb. rewrite Hb in Hrun. simpl in Hrun.
  rewrite Hfmt in Hrun. simpl in Hrun.
  bind_named Hrun b2 Hb2.
  pose proof (slice_from_Ok _ _ _ Hb) as [Hoff _].
  unfold fetchCoverageList in Hrun.
  destruct (len b2 <? 2); [discriminate|].
  bind_named Hrun num Hnum.
  pose proof (be_Uint16_range _ _ Hnum) as Hrange.
  destruct (len b2 <? 2 + num * 2); [discriminate|].
  apply fill_from_lookup in Hrun as [Hlen Hcells].
  exists num. split_and!.
  - rewrite <- Hnum, be_Uint16_as_u16_at.
    rewrite (u16_at_slice b b2 2 0 Hb2) by lia.
    rewrite (u16_at_slice buf b offset (2 + 0) Hb) by lia. done.
  - unfold len. rewrite Hlen. lia.
  - intros i Hi. destruct (Hcells (Z.to_nat i)) as (g & Hg & Hl); [lia|].
    exists g. split; [|done].
    replace (offset + 4 + 2 * i)
      with (offset + (2 + (2 + 2 * (0 + Z.of_nat (Z.to_nat i))))) by lia.
    rewrite <- (u16_at_slice buf b offset _ Hb) by lia.
    rewrite <- (u16_at_slice b b2 2 _ Hb2) by lia.
    exact Hg.
Qed.

Lemma coverage_list_verbatim_witness :
  ∃ num, u16_at [x00; x01; x00; x02; x00; x07; x00; x03] (0 + 2) = Ok num ∧
         len [7; 3] = num ∧
         ∀ i, 0 ≤ i < num →
              ∃ g, u16_at [x00; x01; x00; x02; x00; x07; x00; x03] (0 + 4 + 2 * i) = Ok g ∧
                   [7; 3] !! Z.to_nat i = Some g.
Proof.
  apply (coverage_list_verbatim 0 [x00; x01; x00; x02; x00; x07; x00; x03] 0 [7; 3]);
    vm_compute; reflexivity.
Defined.

Lemma coverageRange_expand_interval (fuel : nat) :
  ∀ (i end_ : GlyphIndex) (out : list GlyphIndex),
    0 ≤ i → end_ < 65535 → (Z.to_nat (end_ - i + 1) < fuel)%nat →
    coverageRange_expand fuel i end_ out = Ok (out ++ seqZ i (end_ - i + 1)).
Proof.
  induction fuel as [|fuel IH]; intros i end_ out Hi He Hf; [lia|].
  simpl. destruct (i <=? end_) eqn:Hle.
  - apply Z.leb_le in Hle.
    assert (GlyphIndex_incr i = i + 1) as ->.
    { unfold GlyphIndex_incr, wrap16. apply Z.mod_small. lia. }
    rewrite IH by lia. rewrite (seqZ_cons i) by lia.
    rewrite <- app_assoc. simpl.
    replace (Z.succ i) with (i + 1) by lia.
    by replace (Z.pred (end_ - i + 1)) with (end_ - (i + 1) + 1) by lia.
  - apply Z.leb_gt in Hle. rewrite seqZ_nil by lia. by rewrite app_nil_r.
Qed.

Lemma coverageRanges_list_from_intervals (fuel : nat) (crs : list coverageRange) :
  ∀ out,
    65536 ≤ Z.of_nat fuel →
    Forall (fun cr => 0 ≤ cr_start cr ∧ cr_end cr < 65535) crs →
    coverageRanges_list_from fuel crs out = Ok (out ++ concat (range_glyphs <$> crs)).
Proof.
  induction crs as [|cr rest IH]; intros out Hfuel Hcrs; simpl.
  - by rewrite app_nil_r.
  - inversion Hcrs as [|? ? [Hs He] Hrest]; subst.
    rewrite coverageRange_expand_interval by lia. simpl.
    rewrite IH by done. by rewrite app_assoc.
Qed.

(** X5: with ranges that start at a non-negative glyph and end below
    65535, and 65536 rounds of fuel, the expansion of coverage ranges ends
    and gives the glyphs of the first range in ascending order, then those
    of the second, and so on; a range that ends before it starts gives
    none, and the stored start index plays no part. *)
Theorem coverageRanges_list_intervals (fuel : nat) (crs : list coverageRange) :
  65536 ≤ Z.of_nat fuel →
  Forall (fun cr => 0 ≤ cr_start cr ∧ cr_end cr < 65535) crs →
  coverageRanges_list fuel crs = Ok (concat (range_glyphs <$> crs)).
Proof.
  intros Hfuel Hcrs. unfold coverageRanges_list.
  by rewrite coverageRanges_list_from_intervals.
Qed.

Lemma coverageRanges_list_intervals_witness :
  coverageRanges_list (Z.to_nat 65536)
    [{| cr_start := 10; cr_end := 12; cr_startCoverage := 7 |};
     {| cr_start := 9; cr_end := 8; cr_startCoverage := 0 |};
     {| cr_start := 20; cr_end := 20; cr_startCoverage := 1 |}]
  = Ok [10; 11; 12; 20].
Proof.
  apply (coverageRanges_list_intervals (Z.to_nat 65536)
           [{| cr_start := 10; cr_end := 12; cr_startCoverage := 7 |};
            {| cr_start := 9; cr_end := 8; cr_startCoverage := 0 |};
            {| cr_start := 20; cr_end := 20; cr_startCoverage := 1 |}]).
  - lia.
  - repeat constructor; simpl; lia.
Defined.

(** ** Class definitions *)

(** X6: when the two bytes of the format field can be read, a class
    definition whose format is neither 1 nor 2 fails with the
    unsupported-class-definition-format error. *)
Theorem fetchClassLookup_other_format (buf : list Byte.byte) (offset format : Z) :
  u16_at buf offset = Ok format → format ≠ 1 → format ≠ 2 →
  fetchClassLookup buf offset = Err errUnsupportedClassDefFormat.
Proof.
  intros Hfmt H1 H2. unfold fetchClassLookup.
  unfold u16_at in Hfmt. bind_named Hfmt b Hb.
  pose proof (be_Uint16_Ok_len _ _ Hfmt) as Hlen.
  pose proof (slice_from_Ok _ _ _ Hb) as [Hoff ->].
  unfold len in Hlen. rewrite length_drop in Hlen.
  replace (len buf <? offset + 2) with false
    by (symmetry; apply Z.ltb_ge; unfold len; lia).
  rewrite Hb. simpl. rewrite Hfmt. simpl.
  destruct (Z.eqb_spec format 1); [done|].
  destruct (Z.eqb_spec format 2); done.
Qed.

Lemma fetchClassLookup_other_format_witness :
  fetchClassLookup [xaa; x00; x03; x00] 1 = Err errUnsupportedClassDefFormat.
Proof.
  apply (fetchClassLookup_other_format [xaa; x00; x03; x00] 1 3);
    [reflexivity | lia | lia].
Defined.

Lemma wrap16_add_wrap16 (s k : Z) : wrap16 (s + wrap16 k) = wrap16 (s + k).
Proof. unfold wrap16. apply Zplus_mod_idemp_r. Qed.

Lemma wrap16_add_inj (s k k' : Z) :
  0 ≤ k < 65536 → 0 ≤ k' < 65536 → wrap16 (s + k) = wrap16 (s + k') → k = k'.
Proof.
  unfold wrap16. intros Hk Hk' Heq.
  pose proof (Z.div_mod (s + k) 65536) as H1.
  pose proof (Z.div_mod (s + k') 65536) as H2.
  rewrite Heq in H1. lia.
Qed.

Lemma class1_classIDs_from_untouched (targets : list Z) :
  ∀ (start i : Z) (out : gmap Z Z) (g : Z),
    (∀ k, (k < length targets)%nat → wrap16 (start + (i + Z.of_nat k)) ≠ g) →
    class1_classIDs_from start i targets out !! g = out !! g.
Proof.
  induction targets as [|t rest IH]; intros start i out g Hg; simpl; [done|].
  rewrite IH.
  - rewrite lookup_insert_ne; [done|]. rewrite wrap16_add_wrap16.
    replace i with (i + Z.of_nat O) by lia. apply Hg. simpl. lia.
  - intros k Hk. replace (i + 1 + Z.of_nat k) with (i + Z.of_nat (S k)) by lia.
    apply Hg. simpl. lia.
Qed.

Lemma class1_classIDs_from_hit (targets : list Z) :
  ∀ (start i : Z) (out : gmap Z Z) (k : nat) (t : Z),
    targets !! k = Some t →
    (∀ k', (k < k' < length targets)%nat →
           wrap16 (start + (i + Z.of_nat k')) ≠ wrap16 (start + (i + Z.of_nat k))) →
    class1_classIDs_from start i targets out !! wrap16 (start + (i + Z.of_nat k))
    = Some t.
Proof.
  induction targets as [|t0 rest IH]; intros start i out k t Hk Hfresh; [done|].
  destruct k as [|k]; simpl in Hk; simpl class1_classIDs_from.
  - injection Hk as ->. rewrite class1_classIDs_from_untouched.
    + rewrite wrap16_add_wrap16. replace (i + Z.of_nat 0) with i by lia.
      apply lookup_insert_eq.
    + intros k' Hk'. replace (i + 1 + Z.of_nat k') with (i + Z.of_nat (S k')) by lia.
      apply Hfresh. simpl. lia.
  - replace (i + Z.of_nat (S k)) with (i + 1 + Z.of_nat k) by lia.
    apply IH; [done|]. intros k' Hk'.
    replace (i + 1 + Z.of_nat k') with (i + Z.of_nat (S k')) by lia.
    replace (i + 1 + Z.of_nat k) with (i + Z.of_nat (S k)) by lia.
    apply Hfresh. simpl. lia.
Qed.

(** X7: class definition format 1.  A decoded table with start glyph
    [start] and [num] class values gives the glyph (start + k) mod 65536,
    for k below num, the k-th stored class value (16 bits at byte 6 + 2k);
    the glyph ids wrap around at 65536.  A glyph that is none of these has
    no entry, so its class reads as 0. *)
Theorem classdef_format1_lookup (buf : list Byte.byte) (c : class1) :
  fetchClassLookupFormat1 buf = Ok c →
  ∃ start num,
    u16_at buf 2 = Ok start ∧ u16_at buf 4 = Ok num ∧
    (∀ k, 0 ≤ k < num →
          ∃ t, u16_at buf (6 + k * 2) = Ok t ∧
               class1_classIDs c !! wrap16 (start + k) = Some t) ∧
    (∀ g, (∀ k, 0 ≤ k < num → g ≠ wrap16 (start + k)) →
          class1_classIDs c !! g = None ∧ map_get (class1_classIDs c) g = 0).
Proof.
  unfold fetchClassLookupFormat1. destruct (len buf <? 6); [discriminate|].
  intros H. bind_named H start Hstart. bind_named H num Hnum.
  pose proof (u16_at_range _ _ _ Hnum) as Hrange.
  destruct (len buf <? 6 + num * 2); [discriminate|].
  bind_named H ids Hids. injection H as <-.
  apply fill_from_lookup in Hids as [Hlen Hcells].
  exists start, num. split_and!; try done.
  - intros k Hk. destruct (Hcells (Z.to_nat k)) as (t & Ht & Hl); [lia|].
    exists t. split.
    { rewrite <- Ht. f_equal. lia. }
    unfold class1_classIDs. simpl.
    replace (start + k) with (start + (0 + Z.of_nat (Z.to_nat k))) by lia.
    apply class1_classIDs_from_hit; [done|].
    intros k' Hk' Heq. apply wrap16_add_inj in Heq; lia.
  - intros g Hg. unfold map_get, class1_classIDs. simpl.
    rewrite class1_classIDs_from_untouched; [by rewrite lookup_empty|].
    intros k Hk Heq. apply (Hg (Z.of_nat k)); [lia|]. by rewrite <- Heq.
Qed.

Lemma classdef_format1_lookup_witness :
  ∃ c start num,
    fetchClassLookupFormat1 [x00; x01; xff; xff; x00; x02; x00; x03; x00; x04] = Ok c ∧
    u16_at [x00; x01; xff; xff; x00; x02; x00; x03; x00; x04] 2 = Ok start ∧
    u16_at [x00; x01; xff; xff; x00; x02; x00; x03; x00; x04] 4 = Ok num ∧
    (∀ k, 0 ≤ k < num →
          ∃ t, u16_at [x00; x01; xff; xff; x00; x02; x00; x03; x00; x04] (6 + k * 2) = Ok t ∧
               class1_classIDs c !! wrap16 (start + k) = Some t).
Proof.
  eexists.
  refine (let H := classdef_format1_lookup
                     [x00; x01; xff; xff; x00; x02; x00; x03; x00; x04] _ _ in _).
  destruct H as (start & num & Hs & Hn & Hk & _).
  exists start, num. split; [vm_compute; reflexivity|]. done.
  Unshelve. vm_compute; reflexivity.
Defined.

Lemma classRange_expand_interval (fuel : nat) :
  ∀ (i end_ target : Z) (out : gmap Z Z),
    0 ≤ i → end_ < 65535 → (Z.to_nat (end_ - i + 1) < fuel)%nat →
    ∃ m, classRange_expand fuel i end_ target out = Ok m ∧
         ∀ g, m !! g = if decide (i ≤ g ≤ end_) then Some target else out !! g.
Proof.
  induction fuel as [|fuel IH]; intros i end_ target out Hi He Hf; [lia|].
  simpl. destruct (i <=? end_) eqn:Hle.
  - apply Z.leb_le in Hle.
    assert (GlyphIndex_incr i = i + 1) as ->.
    { unfold GlyphIndex_incr, wrap16. apply Z.mod_small. lia. }
    destruct (IH (i + 1) end_ target (<[i := target]> out)) as (m & Hrun & Hm);
      [lia..|].
    exists m. split; [exact Hrun|]. intros g. rewrite Hm.
    destruct (decide (i + 1 ≤ g ≤ end_)), (decide (i ≤ g ≤ end_)); try done; try lia.
    + assert (g = i) as -> by lia. apply lookup_insert_eq.
    + apply lookup_insert_ne. lia.
  - apply Z.leb_gt in Hle. exists out. split; [done|]. intros g.
    destruct (decide (i ≤ g ≤ end_)); [lia | done].
Qed.

Lemma class2_classIDs_from_last (fuel : nat) (c : list classRangeRecord) :
  ∀ out,
    65536 ≤ Z.of_nat fuel →
    Forall (fun cr => 0 ≤ crr_start cr ∧ crr_end cr < 65535) c →
    ∃ m, class2_classIDs_from fuel c out = Ok m ∧
         ∀ g, m !! g =
              foldl (fun acc cr =>
                       if decide (crr_start cr ≤ g ≤ crr_end cr)
                       then Some (crr_targetClassID cr) else acc) (out !! g) c.
Proof.
  induction c as [|cr rest IH]; intros out Hfuel Hc; simpl.
  - by exists out.
  - inversion Hc as [|? ? [Hs He] Hrest]; subst.
    destruct (classRange_expand_interval fuel (crr_start cr) (crr_end cr)
                (crr_targetClassID cr) out) as (m1 & -> & Hm1); [lia..|].
    simpl. destruct (IH m1 Hfuel Hrest) as (m & -> & Hm).
    exists m. split; [done|]. intros g. by rewrite Hm, Hm1.
Qed.

(** X8: class definition format 2.  With range records that start at a
    non-negative glyph and end below 65535, and 65536 rounds of fuel, the
    expansion ends, and the class of a glyph is the class of the last
    record whose range holds it: a later record overrides an earlier one
    where they overlap.  A glyph in no range has no entry. *)
Theorem class2_classIDs_last_record (fuel : nat) (c : list classRangeRecord) :
  65536 ≤ Z.of_nat fuel →
  Forall (fun cr => 0 ≤ crr_start cr ∧ crr_end cr < 65535) c →
  ∃ m, class2_classIDs fuel c = Ok m ∧ ∀ g, m !! g = class2_lookup c g.
Proof.
  intros Hfuel Hc. unfold class2_classIDs, class2_lookup.
  destruct (class2_classIDs_from_last fuel c ∅ Hfuel Hc) as (m & Hm & Hl).
  exists m. split; [done|]. intros g. by rewrite Hl, lookup_empty.
Qed.

Lemma class2_classIDs_last_record_witness :
  ∃ m, class2_classIDs (Z.to_nat 65536)
         [{| crr_start := 10; crr_end := 20; crr_targetClassID := 1 |};
          {| crr_start := 15; crr_end := 30; crr_targetClassID := 2 |}] = Ok m ∧
       ∀ g, m !! g =
            class2_lookup
              [{| crr_start := 10; crr_end := 20; crr_targetClassID := 1 |};
               {| crr_start := 15; crr_end := 30; crr_targetClassID := 2 |}] g.
Proof.
  apply (class2_classIDs_last_record (Z.to_nat 65536)
           [{| crr_start := 10; crr_end := 20; crr_targetClassID := 1 |};
            {| crr_start := 15; crr_end := 30; crr_targetClassID := 2 |}]).
  - lia.
  - repeat constructor; simpl; lia.
Defined.

(** ** The simple source *)

Lemma land_shifted_low (a b : Z) :
  0 ≤ a → 0 ≤ b < 65536 → Z.land (a * 65536) b = 0.
Proof.
  intros Ha Hb. apply Z.bits_inj'. intros n Hn.
  rewrite Z.land_spec, Z.bits_0.
  destruct (Z_lt_le_dec n 16) as [Hlow|Hhigh].
  - change 65536 with (2 ^ 16). by rewrite Z.mul_pow2_bits_low by lia.
  - destruct (decide (b = 0)) as [->|Hb0].
    + by rewrite Z.bits_0, andb_false_r.
    + rewrite (Z.bits_above_log2 b n); [apply andb_false_r | lia |].
      assert (Z.log2 b < 16) by (apply Z.log2_lt_pow2; lia). lia.
Qed.

Lemma pair_key_sum (a b : GlyphIndex) :
  is_uint16 a → is_uint16 b → pair_key a b = a * 65536 + b.
Proof.
  unfold is_uint16, pair_key, wrap32. intros Ha Hb.
  rewrite Z.shiftl_mul_pow2 by lia. change (2 ^ 16) with 65536.
  rewrite Z.mod_small by lia.
  pose proof (Z.add_lor_land (a * 65536) b) as Hsum.
  rewrite land_shifted_low in Hsum by lia. lia.
Qed.

(** X9: the key [uint32(a)<<16 | uint32(b)] under which the simple source
    files a pair is a * 65536 + b, below 2^32, and two pairs of 16-bit
    glyph ids with the same key are the same pair: no two pairs share an
    entry. *)
Theorem pair_key_injective (a b a' b' : GlyphIndex) :
  is_uint16 a → is_uint16 b → is_uint16 a' → is_uint16 b' →
  pair_key a b = a * 65536 + b ∧
  0 ≤ pair_key a b < 4294967296 ∧
  (pair_key a b = pair_key a' b' → a = a' ∧ b = b').
Proof.
  intros Ha Hb Ha' Hb'.
  rewrite (pair_key_sum a b), (pair_key_sum a' b') by done.
  unfold is_uint16 in *. lia.
Qed.

Lemma pair_key_injective_witness :
  pair_key 5 9 = 5 * 65536 + 9 ∧
  0 ≤ pair_key 5 9 < 4294967296 ∧
  (pair_key 5 9 = pair_key 5 10 → 5 = 5 ∧ 9 = 10).
Proof.
  apply (pair_key_injective 5 9 5 10); unfold is_uint16; lia.
Defined.





Lemma u16_at_Ok_or_Panic (b : list Byte.byte) (off : Z) :
  (∃ v, u16_at b off = Ok v) ∨ u16_at b off = Panic.
Proof.
  unfold u16_at, slice_from. destruct ((off <? 0) || (len b <? off)); [by right|].
  simpl. destruct (drop (Z.to_nat off) b) as [|b0 [|b1 rest]]; simpl; eauto.
Qed.

Lemma for_loop_Ok_or_Panic {St : Type} (body : Z → St → result St) (n : nat) :
  ∀ (i : Z) (s : St),
    (∀ k s0, (∃ s1, body k s0 = Ok s1) ∨ body k s0 = Panic) →
    (∃ r, for_loop n i body s = Ok r) ∨ for_loop n i body s = Panic.
Proof.
  induction n as [|n IH]; intros i s Hbody; simpl; [by eauto|].
  destruct (Hbody i s) as [[s1 ->] | ->]; simpl; [|by right].
  by apply IH.
Qed.

Lemma fetchPairPosGlyph_from_outcome (cov : list GlyphIndex) :
  ∀ (idx num : Z) (glyphs : list Byte.byte) (out : gmap Z Z),
    (∃ m, fetchPairPosGlyph_from idx cov num glyphs out = Ok m) ∨
    fetchPairPosGlyph_from idx cov num glyphs out = Err errInvalidGPOSKern ∨
    fetchPairPosGlyph_from idx cov num glyphs out = Panic.
Proof.
  induction cov as [|a rest IH]; intros idx num glyphs out; simpl; [by eauto|].
  destruct (idx >=? num); [by auto|].
  destruct (u16_at_Ok_or_Panic glyphs (10 + idx * 2)) as [[offset ->] | ->]; simpl;
    [|by auto].
  destruct (offset + 1 >=? len glyphs); [by auto|].
  destruct (u16_at_Ok_or_Panic glyphs offset) as [[count ->] | ->]; simpl; [|by auto].
  match goal with
  | |- context [for_loop ?n ?i ?body ?s] =>
      destruct (for_loop_Ok_or_Panic body n i s) as [[out' ->] | ->]
  end; simpl; [| apply IH | by auto].
  intros k s0. unfold fetchPairPosGlyph_body.
  destruct (u16_at_Ok_or_Panic glyphs (offset + 2 + k * 4)) as [[b ->] | ->]; simpl;
    [|by auto].
  destruct (u16_at_Ok_or_Panic glyphs (offset + 2 + k * 4 + 2)) as [[v ->] | ->];
    simpl; eauto.
Qed.

(** The outcomes of the format-1 parser: success, the invalid-subtable
    error, or a read outside the buffer. *)
Lemma parsePairPosFormat1_outcome (buf : list Byte.byte) (cov : list GlyphIndex)
    (out : gmap Z Z) :
  (∃ m, parsePairPosFormat1 buf cov out = Ok m) ∨
  parsePairPosFormat1 buf cov out = Err errInvalidGPOSKern ∨
  parsePairPosFormat1 buf cov out = Panic.
Proof.
  unfold parsePairPosFormat1. destruct (len buf <? 10); [by auto|].
  destruct (u16_at_Ok_or_Panic buf 4) as [[vf1 ->] | ->]; simpl; [|by auto].
  destruct (u16_at_Ok_or_Panic buf 6) as [[vf2 ->] | ->]; simpl; [|by auto].
  destruct (u16_at_Ok_or_Panic buf 8) as [[nPairs ->] | ->]; simpl; [|by auto].
  destruct (negb (vf1 =? 4) || negb (vf2 =? 0)); [by eauto|].
  destruct (len buf <? 10 + nPairs * 2); [by auto|].
  match goal with
  | |- context [for_loop ?n ?i ?body ?s] =>
      destruct (for_loop_Ok_or_Panic body n i s) as [[lastOff ->] | ->]
  end; simpl; [| |by auto].
  { intros k s0. destruct (u16_at_Ok_or_Panic buf (10 + k * 2)) as [[v ->] | ->];
      simpl; eauto. }
  destruct (len buf <? lastOff + 2); [by auto|].
  destruct (u16_at_Ok_or_Panic buf lastOff) as [[count ->] | ->]; simpl; [|by auto].
  destruct (len buf <? lastOff + (2 + count * 4)); [by auto|].
  apply fetchPairPosGlyph_from_outcome.
Qed.

(** X11: with the supported value formats, a coverage that lists more
    glyphs than pairSetCount is never accepted: the format-1 parser ends
    with the invalid-subtable error, or with a read outside the buffer
    when the PairSet of an earlier glyph overruns it. *)
Theorem parsePairPosFormat1_long_coverage (buf : list Byte.byte)
    (cov : list GlyphIndex) (out : gmap Z Z) (nPairs : Z) :
  u16_at buf 4 = Ok 4 → u16_at buf 6 = Ok 0 → u16_at buf 8 = Ok nPairs →
  nPairs < len cov →
  parsePairPosFormat1 buf cov out = Err errInvalidGPOSKern ∨
  parsePairPosFormat1 buf cov out = Panic.
Proof.
  intros H4 H6 H8 Hlen.
  destruct (parsePairPosFormat1_outcome buf cov out) as [[m Hm] | H]; [|done].
  by apply (parsePairPosFormat1_too_many buf cov out m nPairs) in Hm.
Qed.

Lemma parsePairPosFormat1_long_coverage_witness :
  parsePairPosFormat1
    [x00; x01; x00; x0a; x00; x04; x00; x00; x00; x00; x00; x01; x00; x01; x00; x05]
    [5] ∅ = Err errInvalidGPOSKern ∨
  parsePairPosFormat1
    [x00; x01; x00; x0a; x00; x04; x00; x00; x00; x00; x00; x01; x00; x01; x00; x05]
    [5] ∅ = Panic.
Proof.
  apply (parsePairPosFormat1_long_coverage
           [x00; x01; x00; x0a; x00; x04; x00; x00; x00; x00; x00; x01; x00; x01; x00; x05]
           [5] ∅ 0); [reflexivity | reflexivity | reflexivity | unfold len; simpl; lia].
Defined.

(** X12: the value-format gate comes before every other check of a
    subtable.  With value formats other than (4, 0), a format-1 subtable of
    at least 10 bytes returns the simple source as it was, and a format-2
    subtable of at least 16 bytes returns the zero-valued class source,
    whatever counts, offsets and class definitions the rest of the buffer
    declares. *)
Theorem value_format_gate (fuel : nat) (buf : list Byte.byte)
    (cov : list GlyphIndex) (out : gmap Z Z) (vf1 vf2 : Z) :
  u16_at buf 4 = Ok vf1 → u16_at buf 6 = Ok vf2 → vf1 ≠ 4 ∨ vf2 ≠ 0 →
  (10 ≤ len buf → parsePairPosFormat1 buf cov out = Ok out) ∧
  (16 ≤ len buf → parsePairPosFormat2 fuel buf cov = Ok classKerns_zero).
Proof.
  intros H4 H6 Hgate. split; intros Hlen.
  - destruct (u16_at_total buf 8) as [nPairs H8]; [lia..|].
    by apply (parsePairPosFormat1_gated buf cov out vf1 vf2 nPairs).
  - by apply (parsePairPosFormat2_gated fuel buf cov vf1 vf2).
Qed.

Lemma value_format_gate_witness :
  (10 ≤ len gated_format1_subtable →
   parsePairPosFormat1 gated_format1_subtable [7] ∅ = Ok ∅) ∧
  (16 ≤ len gated_format1_subtable →
   parsePairPosFormat2 0 gated_format1_subtable [7] = Ok classKerns_zero).
Proof.
  apply (value_format_gate 0 gated_format1_subtable [7] ∅ 5 0);
    [reflexivity | reflexivity | lia].
Defined.

(** ** The errors of the parser *)

Lemma bind_Err {A B} (r : result A) (f : A → result B) (e : error) :
  r ≫= f = Err e → r = Err e ∨ ∃ a, r = Ok a ∧ f a = Err e.
Proof.
  destruct r; simpl; intros H; try discriminate.
  - right. by exists a.
  - left. by injection H as ->.
Qed.

Lemma u16_at_not_Err (b : list Byte.byte) (off : Z) (e : error) :
  u16_at b off ≠ Err e.
Proof. by destruct (u16_at_Ok_or_Panic b off) as [[v ->] | ->]. Qed.

Lemma slice_from_not_Err (b : list Byte.byte) (off : Z) (e : error) :
  slice_from b off ≠ Err e.
Proof. unfold slice_from. by destruct ((off <? 0) || (len b <? off)). Qed.

Lemma be_Uint16_not_Err (b : list Byte.byte) (e : error) : be_Uint16 b ≠ Err e.
Proof. by destruct b as [|b0 [|b1 rest]]. Qed.

Lemma fill_from_not_Err {A : Type} (f : Z → result A) (n : nat) (e : error) :
  ∀ i, (∀ k, f k ≠ Err e) → fill_from n i f ≠ Err e.
Proof.
  induction n as [|n IH]; intros i Hf; simpl; [done|].
  specialize (Hf i) as Hfi. destruct (f i) as [x|e0| |]; simpl; try done.
  - specialize (IH (i + 1) Hf). by destruct (fill_from n (i + 1) f).
  - intros [= ->]. by apply Hfi.
Qed.

Lemma for_loop_not_Err {St : Type} (body : Z → St → result St) (n : nat) (e : error) :
  ∀ i s, (∀ k s0, body k s0 ≠ Err e) → for_loop n i body s ≠ Err e.
Proof.
  induction n as [|n IH]; intros i s Hbody; simpl; [done|].
  specialize (Hbody i s) as Hb. destruct (body i s); simpl; try done.
  by apply IH.
Qed.

(** Splits a failed sequence [x ← r; k]: the read [r] of 16 bits or of a
    slice does not fail with an error, so the failure is in [k]. *)
Ltac bind_err H x Hx :=
  apply bind_Err in H; destruct H as [H | (x & Hx & H)];
  [first [ by apply u16_at_not_Err in H
         | by apply slice_from_not_Err in H
         | by apply be_Uint16_not_Err in H
         | idtac ] |].

Lemma fetchCoverage_Err (fuel : nat) (buf : list Byte.byte) (offset : Z) (e : error) :
  fetchCoverage fuel buf offset = Err e →
  e = errInvalidGPOSKern ∨ ∃ format, e = errUnsupportedCoverageFormat format.
Proof.
  unfold fetchCoverage. destruct (len buf <? offset + 2); [intros [= <-]; by left|].
  intros H. bind_err H b Hb. bind_err H format Hformat.
  destruct (format =? 1).
  - bind_err H b2 Hb2. unfold fetchCoverageList in H.
    destruct (len b2 <? 2); [injection H as <-; by left|].
    bind_err H num Hnum.
    destruct (len b2 <? 2 + num * 2); [injection H as <-; by left|].
    exfalso. revert H. apply fill_from_not_Err. intros k. apply u16_at_not_Err.
  - destruct (format =? 2); [|injection H as <-; by eauto].
    bind_err H b2 Hb2. unfold fetchCoverageRange in H.
    destruct (len b2 <? 2); [injection H as <-; by left|].
    bind_err H num Hnum.
    destruct (len b2 <? 2 + num * 6); [injection H as <-; by left|].
    exfalso. apply bind_Err in H as [H | (crs & Hcrs & H)].
    + revert H. apply fill_from_not_Err. intros k H.
      bind_err H s0 Hs0. bind_err H e0 He0. bind_err H c0 Hc0. done.
    + revert H. unfold coverageRanges_list. generalize (@nil GlyphIndex).
      clear. induction crs as [|cr rest IH]; intros out; simpl; [done|].
      assert (∀ fuel i end_ out, coverageRange_expand fuel i end_ out ≠ Err e) as Hexp.
      { clear. induction fuel as [|fuel IH]; intros i end_ out; simpl; [done|].
        destruct (i <=? end_); [apply IH | done]. }
      specialize (Hexp fuel (cr_start cr) (cr_end cr) out).
      destruct (coverageRange_expand fuel (cr_start cr) (cr_end cr) out); simpl;
        first [done | apply IH].
Qed.

Lemma fetchClassLookup_Err (buf : list Byte.byte) (offset : Z) (e : error) :
  fetchClassLookup buf offset = Err e →
  e = errInvalidGPOSKern ∨ e = errUnsupportedClassDefFormat.
Proof.
  unfold fetchClassLookup. destruct (len buf <? offset + 2); [intros [= <-]; by left|].
  intros H. bind_err H b Hb. bind_err H format Hformat.
  destruct (format =? 1).
  - apply bind_Err in H as [H | (c & Hc & H)]; [|done].
    unfold fetchClassLookupFormat1 in H.
    destruct (len b <? 6); [injection H as <-; by left|].
    bind_err H start Hstart. bind_err H num Hnum.
    destruct (len b <? 6 + num * 2); [injection H as <-; by left|].
    exfalso. apply bind_Err in H as [H | (ids & Hids & H)]; [|done].
    revert H. apply fill_from_not_Err. intros k. apply u16_at_not_Err.
  - destruct (format =? 2); [|injection H as <-; by right].
    apply bind_Err in H as [H | (c & Hc & H)]; [|done].
    unfold fetchClassLookupFormat2 in H.
    destruct (len b <? 4); [injection H as <-; by left|].
    bind_err H num Hnum.
    destruct (len b <? 4 + num * 6); [injection H as <-; by left|].
    exfalso. revert H. apply fill_from_not_Err. intros k H.
    bind_err H s0 Hs0. bind_err H e0 He0. bind_err H c0 Hc0. done.
Qed.

Lemma classIDs_not_Err (fuel : nat) (c : class) (e : error) : classIDs fuel c ≠ Err e.
Proof.
  destruct c as [c|c]; simpl; [done|]. unfold class2_classIDs.
  generalize (∅ : gmap Z Z). induction c as [|cr rest IH]; intros out; simpl; [done|].
  assert (∀ fuel i end_ target m, classRange_expand fuel i end_ target m ≠ Err e)
    as Hexp.
  { clear. induction fuel as [|fuel IH]; intros i end_ target m; simpl; [done|].
    destruct (i <=? end_); [apply IH | done]. }
  specialize (Hexp fuel (crr_start cr) (crr_end cr) (crr_targetClassID cr) out).
  destruct (classRange_expand fuel (crr_start cr) (crr_end cr)
              (crr_targetClassID cr) out); simpl; first [done | apply IH].
Qed.

Lemma parsePairPosFormat2_Err (fuel : nat) (buf : list Byte.byte)
    (cov : list GlyphIndex) (e : error) :
  parsePairPosFormat2 fuel buf cov = Err e →
  e = errInvalidGPOSKern ∨ e = errUnsupportedClassDefFormat.
Proof.
  unfold parsePairPosFormat2. destruct (len buf <? 16); [intros [= <-]; by left|].
  intros H. bind_err H vf1 Hvf1. bind_err H vf2 Hvf2.
  destruct (negb (vf1 =? 4) || negb (vf2 =? 0)); [done|].
  bind_err H o1 Ho1. bind_err H o2 Ho2. bind_err H n1 Hn1. bind_err H n2 Hn2.
  apply bind_Err in H as [H | (cdef1 & Hcdef1 & H)];
    [by apply fetchClassLookup_Err in H|].
  apply bind_Err in H as [H | (cdef2 & Hcdef2 & H)];
    [by apply fetchClassLookup_Err in H|].
  bind_err H b Hb. unfold fetchPairPosClass in H.
  destruct (len b <? n1 * n2 * 2); [injection H as <-; by left|].
  exfalso. apply bind_Err in H as [H | (ks & Hks & H)].
  - revert H. apply for_loop_not_Err. intros i ks. unfold fetchPairPosClass_row.
    apply for_loop_not_Err. intros j ks' H. bind_err H v Hv.
    unfold store in H. by destruct ((j + i * n2 <? 0) || (len ks' <=? j + i * n2)).
  - apply bind_Err in H as [H | (c1 & Hc1 & H)]; [by apply classIDs_not_Err in H|].
    apply bind_Err in H as [H | (c2 & Hc2 & H)]; [by apply classIDs_not_Err in H|].
    done.
Qed.

Lemma parseKern_subtable_Err (fuel : nat) (lookup : Lookup) (o : Z)
    (st : gmap Z Z * list Kerns) (e : error) :
  parseKern_subtable fuel lookup o st = Err e →
  e = errInvalidGPOSKern ∨ e = errUnsupportedClassDefFormat ∨
  ∃ format, e = errUnsupportedCoverageFormat format.
Proof.
  destruct st as [simples classes]. unfold parseKern_subtable.
  destruct (len (data lookup) <? 4 + o); [intros [= <-]; by left|].
  intros H. bind_err H b Hb. bind_err H format Hformat. bind_err H covOff HcovOff.
  apply bind_Err in H as [H | (cov & Hcov & H)].
  { apply fetchCoverage_Err in H as [-> | [f ->]]; eauto. }
  destruct (format =? 1).
  - apply bind_Err in H as [H | (s' & Hs' & H)]; [|done].
    destruct (parsePairPosFormat1_outcome b cov simples) as [[m Hm] | [Hm | Hm]];
      rewrite Hm in H; try done. injection H as <-. by left.
  - destruct (format =? 2); [|done].
    apply bind_Err in H as [H | (cl & Hcl & H)]; [|done].
    apply parsePairPosFormat2_Err in H as [-> | ->]; auto.
Qed.

(** X13: the errors of [parseKern] are of four kinds only: the
    invalid-subtable error, the unsupported-class-definition-format error,
    the unsupported-coverage-format error, and the
    missing-kerning-information error. *)
Theorem parseKern_errors (fuel : nat) (t : TableLayout) (e : error) :
  parseKern fuel t = Err e → kerning_error e.
Proof.
  assert (∀ lookup offs st,
            parseKern_subtables fuel lookup offs st = Err e → kerning_error e)
    as Hsub.
  { intros lookup offs. induction offs as [|o rest IH]; intros st; simpl; [done|].
    intros H. apply bind_Err in H as [H | (st' & Hst' & H)]; [|by eapply IH].
    unfold kerning_error.
    apply parseKern_subtable_Err in H as [-> | [-> | [f ->]]]; eauto 6. }
  assert (∀ ls st, parseKern_lookups fuel ls st = Err e → kerning_error e) as Hls.
  { intros ls. induction ls as [|lookup rest IH]; intros st; simpl; [done|].
    intros H. apply bind_Err in H as [H | (st' & Hst' & H)]; [|by eapply IH].
    destruct (lookup_Type lookup =? 2); [by eapply Hsub | done]. }
  unfold parseKern. intros H.
  apply bind_Err in H as [H | ([simples classes] & Hst & H)]; [by eapply Hls|].
  destruct ((len (Kerns_simple simples :: classes) =? 1) &&
            (Z.of_nat (size simples) =? 0)); [|done].
  injection H as <-. unfold kerning_error. auto.
Qed.

Lemma parseKern_errors_witness : kerning_error errInvalidGPOSKern.
Proof.
  apply (parseKern_errors 0 (layout_of [x00; x01]) errInvalidGPOSKern).
  vm_compute. reflexivity.
Defined.

(** ** What [parseKern] scans and returns *)

Lemma parseKern_lookups_filter (fuel : nat) (ls : list Lookup) :
  ∀ st, parseKern_lookups fuel (filter (fun l => lookup_Type l = 2) ls) st
        = parseKern_lookups fuel ls st.
Proof.
  induction ls as [|lookup rest IH]; intros st; [done|].
  rewrite filter_cons. destruct (decide (lookup_Type lookup = 2)) as [Ht|Ht]; simpl.
  - destruct (Z.eqb_spec (lookup_Type lookup) 2); [|done].
    destruct (parseKern_subtables fuel lookup (subtableOffsets lookup) st); simpl;
      [apply IH | done..].
  - destruct (Z.eqb_spec (lookup_Type lookup) 2); [done|]. simpl. apply IH.
Qed.

(** X14: [parseKern] only looks at the lookups of type 2: the lookups of
    every other type can be dropped from the layout table without changing
    the outcome, whatever their data holds. *)
Theorem parseKern_other_lookups_ignored (fuel : nat) (t : TableLayout) :
  parseKern fuel {| Lookups := filter (fun l => lookup_Type l = 2) (Lookups t) |}
  = parseKern fuel t.
Proof.
  unfold parseKern. simpl. by rewrite parseKern_lookups_filter.
Qed.

Lemma parseKern_subtable_shape (fuel : nat) (lookup : Lookup) (o : Z)
    (simples simples' : gmap Z Z) (cls : list classKerns) (classes' : list Kerns) :
  parseKern_subtable fuel lookup o (simples, Kerns_class <$> cls)
    = Ok (simples', classes') →
  ∃ new, classes' = Kerns_class <$> (cls ++ new) ∧
         Forall2 (fun so cl => class_source_of fuel so.1 so.2 = Ok cl)
           (if has_format 2 lookup o then [(lookup, o)] else []) new.
Proof.
  unfold parseKern_subtable, has_format.
  destruct (len (data lookup) <? 4 + o); [discriminate|].
  intros H. bind_named H b Hb. bind_named H format Hformat.
  assert (u16_at (data lookup) o = Ok format) as ->.
  { unfold u16_at. by rewrite Hb. }
  bind_named H covOff HcovOff. bind_named H cov Hcov.
  destruct (Z.eqb_spec format 1) as [->|H1].
  - bind_named H s' Hs'. injection H as <- <-. exists []. split.
    + by rewrite app_nil_r.
    + simpl. constructor.
  - destruct (Z.eqb_spec format 2) as [->|H2].
    + bind_named H cl Hcl. injection H as <- <-. exists [cl]. split.
      * by rewrite fmap_app.
      * repeat constructor. unfold class_source_of. simpl.
        rewrite Hb. simpl. rewrite HcovOff. simpl. rewrite Hcov. simpl. exact Hcl.
    + injection H as <- <-. exists []. split.
      * by rewrite app_nil_r.
      * constructor.
Qed.

Lemma parseKern_subtables_shape (fuel : nat) (lookup : Lookup) (offs : list Z) :
  ∀ (simples simples' : gmap Z Z) (cls : list classKerns) (classes' : list Kerns),
    parseKern_subtables fuel lookup offs (simples, Kerns_class <$> cls)
      = Ok (simples', classes') →
    ∃ new, classes' = Kerns_class <$> (cls ++ new) ∧
           Forall2 (fun so cl => class_source_of fuel so.1 so.2 = Ok cl)
             ((fun o => (lookup, o)) <$>
                filter (fun o => has_format 2 lookup o = true) offs) new.
Proof.
  induction offs as [|o rest IH]; intros simples simples' cls classes' H; simpl in H.
  - injection H as <- <-. exists []. split; [by rewrite app_nil_r | constructor].
  - bind_named H st Hst. destruct st as [s1 c1].
    apply parseKern_subtable_shape in Hst as (new1 & -> & Hnew1).
    apply IH in H as (new2 & -> & Hnew2).
    exists (new1 ++ new2). split; [by rewrite app_assoc|].
    rewrite filter_cons.
    destruct (has_format 2 lookup o);
      [rewrite decide_True by done | rewrite decide_False by done].
    + rewrite fmap_cons.
      change ((lookup, o) :: ?l) with ([(lookup, o)] ++ l).
      by apply Forall2_app.
    + inversion Hnew1; subst. exact Hnew2.
Qed.

Lemma parseKern_lookups_shape (fuel : nat) (ls : list Lookup) :
  ∀ (simples simples' : gmap Z Z) (cls : list classKerns) (classes' : list Kerns),
    parseKern_lookups fuel ls (simples, Kerns_class <$> cls) = Ok (simples', classes') →
    ∃ new, classes' = Kerns_class <$> (cls ++ new) ∧
           Forall2 (fun so cl => class_source_of fuel so.1 so.2 = Ok cl)
             (format2_scan ls) new.
Proof.
  induction ls as [|lookup rest IH]; intros simples simples' cls classes' H;
    simpl in H.
  - injection H as <- <-. exists []. split; [by rewrite app_nil_r | constructor].
  - bind_named H st Hst. destruct st as [s1 c1].
    unfold format2_scan. rewrite fmap_cons. simpl concat.
    fold (format2_scan rest).
    destruct (lookup_Type lookup =? 2).
    + apply parseKern_subtables_shape in Hst as (new1 & -> & Hnew1).
      apply IH in H as (new2 & -> & Hnew2).
      exists (new1 ++ new2). split; [by rewrite app_assoc|].
      by apply Forall2_app.
    + injection Hst as <- <-.
      apply IH in H as (new2 & -> & Hnew2). exists new2. by split.
Qed.

Lemma format2_scan_length (ls : list Lookup) :
  length (format2_scan ls) = format2_subtables ls.
Proof.
  unfold format2_scan, format2_subtables.
  induction ls as [|lookup rest IH]; [done|].
  rewrite !fmap_cons. simpl concat. simpl sum_list.
  rewrite length_app, IH.
  destruct (lookup_Type lookup =? 2); [by rewrite length_fmap | done].
Qed.

(** X15: a kern set returned by [parseKern] is a union whose slot 0 is the
    simple source and whose other slots are class-based sources, in scan
    order: the slot after slot 0 is the class source parsed from the first
    format-2 subtable of the type-2 lookups, the next one that of the
    second, and so on, one slot for each such subtable (also for those
    behind the value-format gate).  The set is never the union of an empty
    simple source alone. *)
Theorem parseKern_kern_set (fuel : nat) (t : TableLayout) (k : Kerns) :
  parseKern fuel t = Ok k →
  ∃ simples cls,
    k = Kerns_unions (Kerns_simple simples :: (Kerns_class <$> cls)) ∧
    Forall2 (fun so cl => class_source_of fuel so.1 so.2 = Ok cl)
      (format2_scan (Lookups t)) cls ∧
    length cls = format2_subtables (Lookups t) ∧
    (cls = [] → simples ≠ ∅).
Proof.
  unfold parseKern. intros H. bind_named H st Hst. destruct st as [simples classes].
  apply (parseKern_lookups_shape fuel (Lookups t) ∅ simples []) in Hst
    as (cls & -> & Hscan).
  change ([] ++ cls) with cls in H.
  destruct ((len (Kerns_simple simples :: (Kerns_class <$> cls)) =? 1) &&
            (Z.of_nat (size simples) =? 0)) eqn:Hempty; [discriminate|].
  injection H as <-. exists simples, cls. split_and!; [done | done | |].
  - rewrite <- format2_scan_length. symmetry. by eapply Forall2_length.
  - intros -> ->. by rewrite map_size_empty in Hempty.
Qed.

Lemma parseKern_kern_set_witness :
  ∃ simples cls,
    Kerns_unions [Kerns_simple ∅; Kerns_class classKerns_zero]
    = Kerns_unions (Kerns_simple simples :: (Kerns_class <$> cls)) ∧
    Forall2 (fun so cl => class_source_of 0 so.1 so.2 = Ok cl)
      (format2_scan (Lookups (layout_of gated_format2_subtable))) cls ∧
    length cls = format2_subtables (Lookups (layout_of gated_format2_subtable)) ∧
    (cls = [] → simples ≠ ∅).
Proof.
  apply (parseKern_kern_set 0 (layout_of gated_format2_subtable)).
  vm_compute. reflexivity.
Defined.

(** X16: a layout table without a lookup of type 2 (in particular one
    without lookups) has no kerning: [parseKern] fails with the
    missing-kerning-information error, whatever the other lookups hold. *)
Theorem parseKern_no_pair_lookup (fuel : nat) (t : TableLayout) :
  Forall (fun l => lookup_Type l ≠ 2) (Lookups t) →
  parseKern fuel t = Err errMissingGPOSKerning.
Proof.
  intros Hnone. unfold parseKern.
  assert (∀ st, parseKern_lookups fuel (Lookups t) st = Ok st) as ->.
  { induction Hnone as [|lookup rest Ht _ IH]; intros st; simpl; [done|].
    destruct (Z.eqb_spec (lookup_Type lookup) 2); [done|]. simpl. apply IH. }
  reflexivity.
Qed.

Lemma parseKern_no_pair_lookup_witness :
  parseKern 0
    {| Lookups := [ {| lookup_Type := 1; subtableOffsets := [0; 7]; data := [x00] |} ] |}
  = Err errMissingGPOSKerning.
Proof.
  apply (parseKern_no_pair_lookup 0
           {| Lookups := [ {| lookup_Type := 1; subtableOffsets := [0; 7];
                              data := [x00] |} ] |}).
  repeat constructor. simpl. lia.
Defined.

(** * Further properties of the directory *)

(** X17: [AddTable] with a table bypasses the lazy decode.  Whatever the
    directory held for the tag (nothing, an entry not decoded yet, or a
    cached table), the tag is present afterwards and [Table] returns the
    inserted table, runs no decode and leaves the directory as it is. *)
Theorem AddTable_then_Table (parseTable : nat → tableSection → result Table)
    (font : Font) (tag : Tag) (t : Table) (log : list Tag) :
  HasTable (AddTable font tag (Some t)) tag = true ∧
  Font_Table parseTable tag
    {| d_font := AddTable font tag (Some t); d_decodes := log |}
  = (Ok t, {| d_font := AddTable font tag (Some t); d_decodes := log |}).
Proof.
  split.
  - unfold HasTable, AddTable. simpl. apply bool_decide_eq_true.
    rewrite lookup_insert_eq. by eexists.
  - apply Font_Table_cached. unfold cached, AddTable. simpl.
    eexists. split; [apply lookup_insert_eq | done].
Qed.

(** X18: after [RemoveTable] the tag is absent: [HasTable] is false and
    [Table] fails with the missing-table error without running a decode,
    also when the table had been decoded and cached.  Removing a tag that
    is absent changes nothing. *)
Theorem RemoveTable_then_Table (parseTable : nat → tableSection → result Table)
    (font : Font) (tag : Tag) (log : list Tag) :
  HasTable (RemoveTable font tag) tag = false ∧
  Font_Table parseTable tag
    {| d_font := RemoveTable font tag; d_decodes := log |}
  = (Err ErrMissingTable, {| d_font := RemoveTable font tag; d_decodes := log |}) ∧
  (HasTable font tag = false → RemoveTable font tag = font).
Proof.
  split_and!.
  - unfold HasTable, RemoveTable. simpl. apply bool_decide_eq_false.
    rewrite lookup_delete_eq. by intros [? ?].
  - unfold Font_Table, RemoveTable. simpl. by rewrite lookup_delete_eq.
  - unfold HasTable, RemoveTable, set_tables. intros Habs.
    apply bool_decide_eq_false in Habs.
    destruct font as [sc tbl]. simpl in *. f_equal.
    apply delete_id. by apply eq_None_not_Some.
Qed.

Lemma RemoveTable_then_Table_witness :
  HasTable (RemoveTable one_table_font TagGpos) TagGpos = false ∧
  Font_Table parseTable_flaky TagGpos
    {| d_font := RemoveTable one_table_font TagGpos; d_decodes := [] |}
  = (Err ErrMissingTable,
     {| d_font := RemoveTable one_table_font TagGpos; d_decodes := [] |}) ∧
  (HasTable one_table_font TagGpos = false →
   RemoveTable one_table_font TagGpos = one_table_font).
Proof. apply (RemoveTable_then_Table parseTable_flaky one_table_font TagGpos []). Defined.

(** X19: [AddTable] and [RemoveTable] on one tag leave every other tag as
    it was: its presence, and what [Table] returns for it. *)
Theorem other_tags_untouched (parseTable : nat → tableSection → result Table)
    (font : Font) (tag tag' : Tag) (table : option Table) (log : list Tag) :
  tag ≠ tag' →
  HasTable (AddTable font tag table) tag' = HasTable font tag' ∧
  HasTable (RemoveTable font tag) tag' = HasTable font tag' ∧
  fst (Font_Table parseTable tag' {| d_font := AddTable font tag table; d_decodes := log |})
  = fst (Font_Table parseTable tag' {| d_font := font; d_decodes := log |}) ∧
  fst (Font_Table parseTable tag' {| d_font := RemoveTable font tag; d_decodes := log |})
  = fst (Font_Table parseTable tag' {| d_font := font; d_decodes := log |}).
Proof.
  intros Hne. unfold HasTable, Font_Table, AddTable, RemoveTable. simpl.
  rewrite lookup_insert_ne, lookup_delete_ne by done.
  split_and!; try done.
  all: destruct (tables font !! tag') as [s|]; [|done];
    destruct (ts_table s); [done|];
    by destruct (parseTable (length log) s).
Qed.

Lemma other_tags_untouched_witness :
  HasTable (AddTable one_table_font tagKern None) TagGpos
  = HasTable one_table_font TagGpos.
Proof.
  refine (proj1 (other_tags_untouched parseTable_flaky one_table_font tagKern TagGpos
                   None [] _)).
  vm_compute. discriminate.
Defined.

(** X20: [Tags] lists the tags in ascending order of their number, each
    once, and lists exactly the tags for which [HasTable] holds. *)
Theorem Tags_sorted (font : Font) :
  Sorted Z.le (Tags font) ∧ NoDup (Tags font) ∧
  ∀ tag, tag ∈ Tags font ↔ HasTable font tag = true.
Proof.
  unfold Tags. split_and!.
  - apply (Sorted_merge_sort Z.le).
  - rewrite merge_sort_Permutation. apply NoDup_elements.
  - intros tag. rewrite merge_sort_Permutation, elem_of_elements, elem_of_dom.
    unfold HasTable. by rewrite bool_decide_eq_true.
Qed.

Lemma Font_Table_footprint (parseTable : nat → tableSection → result Table)
    (tag : Tag) (d d' : dir) (r : result Table) :
  Font_Table parseTable tag d = (r, d') →
  scalerType (d_font d') = scalerType (d_font d) ∧
  (∀ tag', HasTable (d_font d') tag' = HasTable (d_font d) tag') ∧
  (∀ tag', tag' ≠ tag → tables (d_font d') !! tag' = tables (d_font d) !! tag') ∧
  (∀ tag', tag' ≠ tag → decode_count tag' d' = decode_count tag' d) ∧
  (decode_count tag d' ≤ S (decode_count tag d))%nat.
Proof.
  unfold Font_Table. destruct d as [font log]. simpl.
  destruct (tables font !! tag) as [s|] eqn:Hs;
    [|intros [= <- <-]; split_and!; try done; lia].
  destruct (ts_table s); [intros [= <- <-]; split_and!; try done; lia|].
  assert (∀ f, (∀ tag', tag' ≠ tag →
                  decode_count tag' {| d_font := f; d_decodes := log ++ [tag] |}
                  = decode_count tag' {| d_font := font; d_decodes := log |}) ∧
               (decode_count tag {| d_font := f; d_decodes := log ++ [tag] |}
                ≤ S (decode_count tag {| d_font := font; d_decodes := log |}))%nat)
    as Hlog.
  { intros f. split.
    - intros tag' Hne. rewrite decode_count_app. by rewrite decide_False.
    - rewrite decode_count_app, decide_True by done. unfold decode_count. simpl. lia. }
  destruct (parseTable (length log) s); intros [= <- <-]; simpl;
    (split_and!; [done | | | apply Hlog | apply Hlog]); try done.
  - intros tag'. unfold HasTable. simpl. apply bool_decide_ext.
    destruct (decide (tag' = tag)) as [->|Hne].
    + rewrite lookup_insert_eq, Hs. split; by eexists.
    + by rewrite lookup_insert_ne.
  - intros tag' Hne. by rewrite lookup_insert_ne.
Qed.

(** X21: a call [Table(tag)] never adds or removes a tag and keeps the
    scaler type; it leaves the entry and the decode count of every other
    tag as they were, and runs the decode of its own tag at most once. *)
Theorem Table_footprint (parseTable : nat → tableSection → result Table)
    (tag : Tag) (d d' : dir) (r : result Table) :
  Font_Table parseTable tag d = (r, d') →
  scalerType (d_font d') = scalerType (d_font d) ∧
  (∀ tag', HasTable (d_font d') tag' = HasTable (d_font d) tag') ∧
  (∀ tag', tag' ≠ tag → tables (d_font d') !! tag' = tables (d_font d) !! tag') ∧
  (∀ tag', tag' ≠ tag → decode_count tag' d' = decode_count tag' d) ∧
  (decode_count tag d' ≤ S (decode_count tag d))%nat.
Proof. apply Font_Table_footprint. Qed.

Lemma Table_footprint_witness :
  scalerType (d_font (snd (Font_Table parseTable_flaky TagGpos
                             {| d_font := one_table_font; d_decodes := [TagGpos] |})))
  = scalerType one_table_font.
Proof.
  refine (proj1 (Table_footprint parseTable_flaky TagGpos
                   {| d_font := one_table_font; d_decodes := [TagGpos] |} _ _ _)).
  vm_compute. reflexivity.
Defined.

(** ** The resolver and the directory *)





(** X23: a font with neither a GPOS nor a kern table has no kerning: with
    either priority [KernTable] fails with the missing-table error, runs no
    decode and leaves the directory as it is. *)
Theorem KernTable_no_tables (parseTable : nat → tableSection → result Table)
    (findTableBuffer : tableSection → result (list Byte.byte))
    (parseKernTable : list Byte.byte → result Kerns)
    (fuel : nat) (kernFirst : bool) (d : dir) :
  HasTable (d_font d) TagGpos = false → HasTable (d_font d) tagKern = false →
  KernTable parseTable findTableBuffer parseKernTable fuel kernFirst d
  = (Err ErrMissingTable, d).
Proof.
  unfold HasTable. intros Hg Hk.
  apply bool_decide_eq_false in Hg, Hk.
  apply eq_None_not_Some in Hg, Hk.
  unfold KernTable, gposKerning, GposTable, Font_TableLayout, Font_Table, kernKerning.
  rewrite Hg, Hk. by destruct kernFirst.
Qed.

Lemma KernTable_no_tables_witness :
  KernTable parseTable_flaky findTableBuffer_empty parseKernTable_empty 0 true
    {| d_font := {| scalerType := 0x00010000; tables := ∅ |}; d_decodes := [] |}
  = (Err ErrMissingTable,
     {| d_font := {| scalerType := 0x00010000; tables := ∅ |}; d_decodes := [] |}).
Proof.
  apply (KernTable_no_tables parseTable_flaky findTableBuffer_empty
           parseKernTable_empty 0 true
           {| d_font := {| scalerType := 0x00010000; tables := ∅ |}; d_decodes := [] |});
    vm_compute; reflexivity.
Defined.

(** X24: kerning from GPOS is repeatable.  Once [gposKerning] has
    succeeded, the GPOS table is cached: a later [KernTable] with GPOS
    first returns the same kern set, runs no decode and leaves the
    directory as it is, whatever the file decoders would do by then. *)
Theorem gposKerning_repeatable (parseTable : nat → tableSection → result Table)
    (findTableBuffer : tableSection → result (list Byte.byte))
    (parseKernTable : list Byte.byte → result Kerns)
    (fuel : nat) (d d1 : dir) (k : Kerns) :
  gposKerning parseTable fuel d = (Ok k, d1) →
  KernTable parseTable findTableBuffer parseKernTable fuel false d1 = (Ok k, d1).
Proof.
  unfold KernTable, gposKerning, GposTable, Font_TableLayout.
  destruct (Font_Table parseTable TagGpos d) as [r d'] eqn:Hcall.
  intros [= Hk <-].
  destruct r as [t| | |]; simpl in Hk; try discriminate.
  apply Font_Table_Ok_cached in Hcall.
  rewrite (Font_Table_cached parseTable TagGpos t d' Hcall). simpl.
  by rewrite Hk.
Qed.

Lemma gposKerning_repeatable_witness :
  ∃ k d1,
    gposKerning parseTable_flaky 0
      {| d_font := AddTable one_table_font TagGpos
                     (Some (Table_Layout (layout_of class_pair_subtable)));
         d_decodes := [] |} = (Ok k, d1) ∧
    KernTable parseTable_flaky findTableBuffer_empty parseKernTable_empty 0 false d1
    = (Ok k, d1).
Proof.
  eexists _, _. split; [vm_compute; reflexivity|].
  apply (gposKerning_repeatable parseTable_flaky findTableBuffer_empty
           parseKernTable_empty 0
           {| d_font := AddTable one_table_font TagGpos
                          (Some (Table_Layout (layout_of class_pair_subtable)));
              d_decodes := [] |}).
  vm_compute. reflexivity.
Defined.

(** ** Strict parsing *)

Lemma StrictParse_tables_cached (parseTable : nat → tableSection → result Table)
    (tags : list Tag) :
  ∀ (d d' : dir),
    StrictParse_tables parseTable tags d = Strict_font d' →
    (∀ tag t, cached tag t d → cached tag t d') ∧
    (∀ tag, tag ∈ tags → ∃ t, cached tag t d').
Proof.
  induction tags as [|tag0 rest IH]; intros d d' Hrun; simpl in Hrun.
  - injection Hrun as <-. split; [done|]. intros tag Htag. by apply elem_of_nil in Htag.
  - destruct (Font_Table parseTable tag0 d) as [r d1] eqn:Hcall.
    destruct r as [t0| | |]; try discriminate.
    destruct (IH d1 d' Hrun) as [Hkeep Hall].
    assert (∀ tag t, cached tag t d → cached tag t d1) as Hstep.
    { intros tag t Hc.
      pose proof (Font_Table_keeps_cached parseTable tag tag0 t d Hc) as [Hc1 _].
      by rewrite Hcall in Hc1. }
    split; [by auto|].
    intros tag Htag. apply elem_of_cons in Htag as [->|Htag]; [|by apply Hall].
    exists t0. apply Hkeep. by eapply Font_Table_Ok_cached.
Qed.

(** X25: when [StrictParse] succeeds, every table of the font is decoded
    and cached: for each tag of the font a later [Table] returns a table,
    runs no decode and leaves the directory as it is. *)
Theorem StrictParse_all_cached (parseTable : nat → tableSection → result Table)
    (d d' : dir) (tag : Tag) :
  StrictParse parseTable (Ok d) = Strict_font d' →
  HasTable (d_font d) tag = true →
  ∃ t, Font_Table parseTable tag d' = (Ok t, d').
Proof.
  unfold StrictParse. intros Hrun Htag.
  apply StrictParse_tables_cached in Hrun as [_ Hall].
  destruct (Hall tag) as [t Ht].
  - unfold Tags. rewrite merge_sort_Permutation, elem_of_elements, elem_of_dom.
    unfold HasTable in Htag. by apply bool_decide_eq_true in Htag.
  - exists t. by apply Font_Table_cached.
Qed.

Lemma StrictParse_all_cached_witness :
  ∃ t d',
    Font_Table parseTable_flaky TagGpos d' = (Ok t, d') ∧
    StrictParse parseTable_flaky
      (Ok {| d_font := one_table_font; d_decodes := [tagKern] |}) = Strict_font d'.
Proof.
  refine (let H := StrictParse_all_cached parseTable_flaky
                     {| d_font := one_table_font; d_decodes := [tagKern] |} _ TagGpos
                     _ _ in _).
  destruct H as [t Ht]. eexists t, _. split; [exact Ht|]. vm_compute. reflexivity.
  Unshelve. all: vm_compute; reflexivity.
Defined.

(** X26: the loop of [StrictParse] stops at the first tag of its list
    whose [Table] call fails and reports that tag with the error of the
    call; the tables of the tags before it were decoded with success. *)
Theorem StrictParse_first_failure (parseTable : nat → tableSection → result Table)
    (tags : list Tag) (d : dir) (tag : Tag) (e : error) :
  StrictParse_tables parseTable tags d = Strict_failed_to_parse tag e →
  ∃ before after d1 d2,
    tags = before ++ tag :: after ∧
    d1 = Table_calls parseTable before d ∧
    Font_Table parseTable tag d1 = (Err e, d2) ∧
    StrictParse_tables parseTable before d = Strict_font d1.
Proof.
  revert d. induction tags as [|tag0 rest IH]; intros d Hrun; simpl in Hrun;
    [discriminate|].
  destruct (Font_Table parseTable tag0 d) as [r d1] eqn:Hcall.
  destruct r as [t0|e0| |]; try discriminate.
  - destruct (IH d1 Hrun) as (before & after & d2 & d3 & -> & -> & Hfail & Hok).
    exists (tag0 :: before), after, (Table_calls parseTable before d1), d3.
    simpl. rewrite Hcall. simpl. by split_and!.
  - injection Hrun as <- <-. exists [], rest, d, d1. by split_and!.
Qed.

Lemma StrictParse_first_failure_witness :
  ∃ before after d1 d2,
    [TagGpos] = before ++ TagGpos :: after ∧
    d1 = Table_calls parseTable_failing before
           {| d_font := one_table_font; d_decodes := [] |} ∧
    Font_Table parseTable_failing TagGpos d1 = (Err (errExternal 1), d2) ∧
    StrictParse_tables parseTable_failing before
      {| d_font := one_table_font; d_decodes := [] |} = Strict_font d1.
Proof.
  apply (StrictParse_first_failure parseTable_failing [TagGpos]
           {| d_font := one_table_font; d_decodes := [] |} TagGpos (errExternal 1)).
  vm_compute. reflexivity.
Defined.

(** * Further properties of the pair adjustment parsers *)

(** X27: a format-2 subtable whose buffer is shorter than the header plus
    class1Count * class2Count matrix entries fails with the
    invalid-subtable error, also when both class definitions decode; the
    check comes before any class range is expanded, so no fuel is needed
    to reach it. *)
Theorem format2_short_matrix (fuel : nat) (buf : list Byte.byte)
    (cov : list GlyphIndex) (o1 o2 n1 n2 : Z) (c1 c2 : class) :
  u16_at buf 4 = Ok 4 → u16_at buf 6 = Ok 0 →
  u16_at buf 8 = Ok o1 → u16_at buf 10 = Ok o2 →
  u16_at buf 12 = Ok n1 → u16_at buf 14 = Ok n2 →
  fetchClassLookup buf o1 = Ok c1 → fetchClassLookup buf o2 = Ok c2 →
  len buf < 16 + n1 * n2 * 2 →
  parsePairPosFormat2 fuel buf cov = Err errInvalidGPOSKern.
Proof.
  intros H4 H6 H8 H10 H12 H14 Hc1 Hc2 Hshort. unfold parsePairPosFormat2.
  destruct (len buf <? 16) eqn:Hlen; [done|]. apply Z.ltb_ge in Hlen.
  rewrite H4, H6, H8, H10, H12, H14. simpl. rewrite Hc1, Hc2. simpl.
  rewrite slice_from_total by lia. simpl. unfold fetchPairPosClass.
  replace (len (drop (Z.to_nat 16) buf) <? n1 * n2 * 2) with true; [done|].
  symmetry. apply Z.ltb_lt. unfold len in *. rewrite length_drop. lia.
Qed.

Lemma format2_short_matrix_witness :
  parsePairPosFormat2 0
    [x00; x02; x00; x00; x00; x04; x00; x00; x00; x10; x00; x10; x00; x03; x00; x02;
     x00; x02; x00; x00] [] = Err errInvalidGPOSKern.
Proof.
  apply (format2_short_matrix 0
           [x00; x02; x00; x00; x00; x04; x00; x00; x00; x10; x00; x10; x00; x03; x00; x02;
            x00; x02; x00; x00] [] 16 16 3 2 (Class2 []) (Class2 []));
    vm_compute; reflexivity.
Defined.

Lemma fetchPairPosGlyph_body_reads (glyphs : list Byte.byte) (offset highByte i : Z)
    (out out' : gmap Z Z) :
  fetchPairPosGlyph_body glyphs offset highByte i out = Ok out' →
  ∃ b v, u16_at glyphs (offset + 2 + i * 4) = Ok b ∧
         out' = <[Z.lor highByte b := int16 v]> out.
Proof.
  unfold fetchPairPosGlyph_body. intros H.
  bind_named H b Hb. bind_named H v Hv. injection H as <-. by exists b, v.
Qed.

Lemma PairSet_loop_entries (glyphs : list Byte.byte) (offset a count : Z)
    (out out' : gmap Z Z) :
  0 ≤ count →
  for_loop (Z.to_nat count) 0
    (fetchPairPosGlyph_body glyphs offset (wrap32 (Z.shiftl a 16))) out = Ok out' →
  (∀ k, is_Some (out !! k) → is_Some (out' !! k)) ∧
  ∀ i, 0 ≤ i < count →
       ∃ b, u16_at glyphs (offset + 2 + i * 4) = Ok b ∧
            is_Some (out' !! pair_key a b).
Proof.
  intros Hcount Hloop.
  apply (for_loop_invariant
           (fun j m =>
              (∀ k, is_Some (out !! k) → is_Some (m !! k)) ∧
              ∀ i, 0 ≤ i < j →
                   ∃ b, u16_at glyphs (offset + 2 + i * 4) = Ok b ∧
                        is_Some (m !! pair_key a b))) in Hloop.
  - by replace (0 + Z.of_nat (Z.to_nat count)) with count in Hloop by lia.
  - split; [done|]. intros i Hi. lia.
  - intros j s0 s1 Hj [Hdom Hrec] Hbody.
    apply fetchPairPosGlyph_body_reads in Hbody as (b & v & Hb & ->).
    assert (∀ k, is_Some (s0 !! k) →
                 is_Some (<[Z.lor (wrap32 (Z.shiftl a 16)) b := int16 v]> s0 !! k))
      as Hins.
    { intros k Hk. rewrite lookup_insert. by case_decide. }
    split; [by auto|]. intros i Hi.
    destruct (decide (i = j)) as [->|Hne].
    + exists b. split; [done|]. unfold pair_key. rewrite lookup_insert_eq. by eexists.
    + destruct (Hrec i) as (b' & Hb' & Hsome); [lia|]. exists b'. auto.
Qed.

Lemma fetchPairPosGlyph_from_complete (cov : list GlyphIndex) :
  ∀ (idx num : Z) (glyphs : list Byte.byte) (out m : gmap Z Z),
    fetchPairPosGlyph_from idx cov num glyphs out = Ok m →
    (∀ k, is_Some (out !! k) → is_Some (m !! k)) ∧
    ∀ (j : nat) (a : GlyphIndex),
      cov !! j = Some a →
      ∃ offset count,
        u16_at glyphs (10 + (idx + Z.of_nat j) * 2) = Ok offset ∧
        u16_at glyphs offset = Ok count ∧
        ∀ i, 0 ≤ i < count →
             ∃ b, u16_at glyphs (offset + 2 + i * 4) = Ok b ∧
                  is_Some (m !! pair_key a b).
Proof.
  induction cov as [|a0 rest IH]; intros idx num glyphs out m Hrun; simpl in Hrun.
  - injection Hrun as <-. split; [done|]. intros j a Hj. done.
  - destruct (idx >=? num); [discriminate|].
    bind_named Hrun offset Hoffset.
    destruct (offset + 1 >=? len glyphs); [discriminate|].
    bind_named Hrun count Hcount. bind_named Hrun out' Hloop.
    pose proof (u16_at_range _ _ _ Hcount) as Hrange.
    apply PairSet_loop_entries in Hloop as [Hdom Hrec]; [|lia].
    destruct (IH _ _ _ _ _ Hrun) as [Hdom' Hrest].
    split; [by auto|].
    intros [|j] a Hj; simpl in Hj.
    + injection Hj as <-. exists offset, count.
      replace (idx + Z.of_nat 0) with idx by lia. split_and!; [done..|].
      intros i Hi. destruct (Hrec i Hi) as (b & Hb & Hsome). exists b. auto.
    + destruct (Hrest j a Hj) as (o & c & Ho & Hc & Hall).
      exists o, c. split_and!; [|done..].
      by replace (idx + Z.of_nat (S j)) with (idx + 1 + Z.of_nat j) by lia.
Qed.

(** X28: a successful format-1 parse with the supported value formats
    files every record it was given.  For the glyph of coverage index j,
    whose PairSet offset is the j-th of the offset array, each of the
    records the PairSet declares has an entry in the simple source under
    the key of (that glyph, the record's second glyph); and no entry that
    was there before is lost. *)
Theorem parsePairPosFormat1_complete (buf : list Byte.byte) (cov : list GlyphIndex)
    (out m : gmap Z Z) (j : nat) (a : GlyphIndex) :
  u16_at buf 4 = Ok 4 → u16_at buf 6 = Ok 0 →
  parsePairPosFormat1 buf cov out = Ok m →
  cov !! j = Some a →
  (∀ k, is_Some (out !! k) → is_Some (m !! k)) ∧
  ∃ offset count,
    u16_at buf (10 + Z.of_nat j * 2) = Ok offset ∧
    u16_at buf offset = Ok count ∧
    ∀ i, 0 ≤ i < count →
         ∃ b, u16_at buf (offset + 2 + i * 4) = Ok b ∧
              is_Some (m !! pair_key a b).
Proof.
  intros H4 H6 Hrun Hj. unfold parsePairPosFormat1 in Hrun.
  destruct (len buf <? 10); [discriminate|].
  rewrite H4, H6 in Hrun. simpl in Hrun.
  bind_named Hrun nPairs Hn. simpl in Hrun.
  destruct (len buf <? 10 + nPairs * 2); [discriminate|].
  bind_named Hrun lastOff Hlast.
  destruct (len buf <? lastOff + 2); [discriminate|].
  bind_named Hrun count Hcount.
  destruct (len buf <? lastOff + (2 + count * 4)); [discriminate|].
  unfold fetchPairPosGlyph in Hrun.
  apply fetchPairPosGlyph_from_complete in Hrun as [Hdom Hall].
  split; [done|].
  destruct (Hall j a Hj) as (o & c & Ho & Hc & Hrec).
  exists o, c. by replace (0 + Z.of_nat j) with (Z.of_nat j) in Ho by lia.
Qed.

Lemma parsePairPosFormat1_complete_witness :
  ∃ m, parsePairPosFormat1
         [x00; x01; x00; x0c; x00; x04; x00; x00; x00; x01; x00; x12;
          x00; x01; x00; x01; x00; x05; x00; x01; x00; x09; xff; xe2] [5] ∅ = Ok m ∧
       ∃ offset count,
         u16_at [x00; x01; x00; x0c; x00; x04; x00; x00; x00; x01; x00; x12;
                 x00; x01; x00; x01; x00; x05; x00; x01; x00; x09; xff; xe2]
           (10 + Z.of_nat 0 * 2) = Ok offset ∧
         u16_at [x00; x01; x00; x0c; x00; x04; x00; x00; x00; x01; x00; x12;
                 x00; x01; x00; x01; x00; x05; x00; x01; x00; x09; xff; xe2]
           offset = Ok count ∧
         ∀ i, 0 ≤ i < count →
              ∃ b, u16_at [x00; x01; x00; x0c; x00; x04; x00; x00; x00; x01; x00; x12;
                           x00; x01; x00; x01; x00; x05; x00; x01; x00; x09; xff; xe2]
                     (offset + 2 + i * 4) = Ok b ∧
                   is_Some (m !! pair_key 5 b).
Proof.
  eexists. split; [vm_compute; reflexivity|].
  refine (proj2 (parsePairPosFormat1_complete _ [5] ∅ _ 0 5 _ _ _ _));
    vm_compute; reflexivity.
Defined.
